(** * chesslib: the move-notation codec of [notation.go]

    A shallow embedding of the three notations of the [chess] package
    (UCI, Standard Algebraic and Long Algebraic) together with the helpers
    they share, followed by the properties the specification states about
    them.

    Go strings are byte sequences: they are modelled by [string]
    (a list of 8-bit [ascii] characters), [len] by [String.length] and the
    slice [s[i:j]] by [String.substring i (j - i) s]. *)

From Stdlib Require Import Ascii.
From stdpp Require Import gmap strings list.

#[local] Set Warnings "-clear-no-such-hyp".

Local Open Scope stdpp_scope.

(** ** The board vocabulary

    [notation.go] only uses these types; their declarations live in other
    files of the package. *)

(** Modelled from the spec: the type [File] (declared outside
    [notation.go]), a column of the board, 'a' to 'h'. *)
Inductive File := FileA | FileB | FileC | FileD | FileE | FileF | FileG | FileH.

(** Modelled from the spec: the type [Rank] (declared outside
    [notation.go]), a row of the board, '1' to '8'. *)
Inductive Rank := Rank1 | Rank2 | Rank3 | Rank4 | Rank5 | Rank6 | Rank7 | Rank8.

(** Modelled from the spec: the type [Square] (declared outside
    [notation.go]), one of the 64 cells, exposing its file and its rank. *)
Record Square := mkSquare { Square_File : File; Square_Rank : Rank }.

(** Modelled from the spec: the type [PieceType] (declared outside
    [notation.go]); [NoPieceType] is the sentinel for no promotion. *)
Inductive PieceType := NoPieceType | King | Queen | Rook | Bishop | Knight | Pawn.

(** Modelled from the spec: the type [Color] (declared outside
    [notation.go]); [NoColor] is the colour of an empty square. *)
Inductive Color := NoColor | White | Black.

(** Modelled from the spec: the type [Piece] (declared outside
    [notation.go]), a type together with a colour, or no piece. *)
Inductive Piece :=
  | NoPiece
  | WhiteKing | WhiteQueen | WhiteRook | WhiteBishop | WhiteKnight | WhitePawn
  | BlackKing | BlackQueen | BlackRook | BlackBishop | BlackKnight | BlackPawn.

(** Modelled from the spec: the type [MoveTag] (declared outside
    [notation.go]), the semantic tags a move may carry. *)
Inductive MoveTag := KingSideCastle | QueenSideCastle | Capture | EnPassant | Check.

(** Modelled from the spec: the result type of [Position.Status] (declared
    outside [notation.go]); only the comparison with [Checkmate] matters to
    the codec. *)
Inductive Method := NoMethod | Checkmate | Stalemate.

#[global] Instance File_eq_dec : EqDecision File.
Proof. solve_decision. Defined.
#[global] Instance Rank_eq_dec : EqDecision Rank.
Proof. solve_decision. Defined.
#[global] Instance Square_eq_dec : EqDecision Square.
Proof. solve_decision. Defined.
#[global] Instance PieceType_eq_dec : EqDecision PieceType.
Proof. solve_decision. Defined.
#[global] Instance Color_eq_dec : EqDecision Color.
Proof. solve_decision. Defined.
#[global] Instance Piece_eq_dec : EqDecision Piece.
Proof. solve_decision. Defined.
#[global] Instance MoveTag_eq_dec : EqDecision MoveTag.
Proof. solve_decision. Defined.
#[global] Instance Method_eq_dec : EqDecision Method.
Proof. solve_decision. Defined.

Definition MoveTag_to_nat (t : MoveTag) : nat :=
  match t with
  | KingSideCastle => 0 | QueenSideCastle => 1 | Capture => 2
  | EnPassant => 3 | Check => 4
  end.

Definition MoveTag_of_nat (n : nat) : option MoveTag :=
  match n with
  | 0 => Some KingSideCastle | 1 => Some QueenSideCastle | 2 => Some Capture
  | 3 => Some EnPassant | 4 => Some Check | _ => None
  end.

#[global] Instance MoveTag_countable : Countable MoveTag.
Proof.
  apply (inj_countable MoveTag_to_nat MoveTag_of_nat).
  intros []; reflexivity.
Defined.

(** Modelled from the spec: [Piece.Type] and [Piece.Color] (declared outside
    [notation.go]). *)
Definition Piece_Type (p : Piece) : PieceType :=
  match p with
  | NoPiece => NoPieceType
  | WhiteKing | BlackKing => King
  | WhiteQueen | BlackQueen => Queen
  | WhiteRook | BlackRook => Rook
  | WhiteBishop | BlackBishop => Bishop
  | WhiteKnight | BlackKnight => Knight
  | WhitePawn | BlackPawn => Pawn
  end.

Definition Piece_Color (p : Piece) : Color :=
  match p with
  | NoPiece => NoColor
  | WhiteKing | WhiteQueen | WhiteRook | WhiteBishop | WhiteKnight | WhitePawn => White
  | BlackKing | BlackQueen | BlackRook | BlackBishop | BlackKnight | BlackPawn => Black
  end.

(** Modelled from the spec: the [String] methods of [File], [Rank] and
    [Square] (declared outside [notation.go]); a square's text is its file
    letter followed by its rank digit, as in "e4". *)
Definition File_String (f : File) : string :=
  match f with
  | FileA => "a" | FileB => "b" | FileC => "c" | FileD => "d"
  | FileE => "e" | FileF => "f" | FileG => "g" | FileH => "h"
  end.

Definition Rank_String (r : Rank) : string :=
  match r with
  | Rank1 => "1" | Rank2 => "2" | Rank3 => "3" | Rank4 => "4"
  | Rank5 => "5" | Rank6 => "6" | Rank7 => "7" | Rank8 => "8"
  end.

Definition Square_String (sq : Square) : string :=
  File_String (Square_File sq) +:+ Rank_String (Square_Rank sq).

(** Modelled from the spec: [PieceType.String] (declared outside
    [notation.go]), the lowercase letter of a piece type and the empty
    string for [NoPieceType].  The spec fixes the letters q, r, b, n; the
    letters of [King] and [Pawn] play no part in any statement below. *)
Definition PieceType_String (p : PieceType) : string :=
  match p with
  | NoPieceType => EmptyString
  | King => "k" | Queen => "q" | Rook => "r"
  | Bishop => "b" | Knight => "n" | Pawn => "p"
  end.

Definition allFiles : list File :=
  [FileA; FileB; FileC; FileD; FileE; FileF; FileG; FileH].
Definition allRanks : list Rank :=
  [Rank1; Rank2; Rank3; Rank4; Rank5; Rank6; Rank7; Rank8].
Definition allSquares : list Square :=
  r ← allRanks; f ← allFiles; [mkSquare f r].

(** Modelled from the spec: the table [strToSquareMap] (declared outside
    [notation.go]), from the two-character text of a square to the square. *)
Definition strToSquareMap : gmap string Square :=
  list_to_map ((λ sq, (Square_String sq, sq)) <$> allSquares).
Arguments strToSquareMap : simpl never.

Definition C1 : Square := mkSquare FileC Rank1.
Definition E1 : Square := mkSquare FileE Rank1.
Definition G1 : Square := mkSquare FileG Rank1.
Definition C8 : Square := mkSquare FileC Rank8.
Definition E8 : Square := mkSquare FileE Rank8.
Definition G8 : Square := mkSquare FileG Rank8.

(** Modelled from the spec: the struct [Move] (declared outside
    [notation.go]): origin, destination, promotion piece and a set of tags. *)
Record Move := mkMove {
  S1 : Square;
  S2 : Square;
  promo : PieceType;
  tags : gset MoveTag
}.

#[global] Instance Move_eq_dec : EqDecision Move.
Proof. solve_decision. Defined.

Definition HasTag (m : Move) (t : MoveTag) : bool := bool_decide (t ∈ tags m).

Definition addTag (t : MoveTag) (m : Move) : Move :=
  mkMove (S1 m) (S2 m) (promo m) ({[t]} ∪ tags m).

(** Modelled from the spec: the struct [Position] (declared outside
    [notation.go]), reduced to what the codec reads from it: the piece on
    each square, the en-passant target if any, the ordered list of legal
    moves, the game status and the text used in error messages. *)
Record Position := mkPosition {
  board : Square → Piece;
  enPassantSquare : option Square;
  ValidMoves : list Move;
  Status : Method;
  Position_String : string
}.

(** The outcome of a decoder: Go's pair of a move and an error, where the
    error made by [fmt.Errorf] is its message. *)
Inductive result (A : Type) :=
  | Ok (a : A)
  | Err (msg : string).
Arguments Ok {A} a.
Arguments Err {A} msg.

#[global] Instance result_eq_dec `{EqDecision A} : EqDecision (result A).
Proof. solve_decision. Defined.

Definition quote : string := String "034" EmptyString.

(** [fmt] renders a [*Position] with its [String] method, and a nil pointer
    as "<nil>". *)
Definition fmtPosition (pos : option Position) : string :=
  match pos with
  | Some p => Position_String p
  | None => "<nil>"
  end.

(** ** Helpers of [notation.go] that do not touch the position *)

Definition charFromPieceType (p : PieceType) : string :=
  match p with
  | King => "K"
  | Queen => "Q"
  | Rook => "R"
  | Bishop => "B"
  | Knight => "N"
  | _ => EmptyString
  end.

Definition charForPromo (p : PieceType) : string :=
  let c := charFromPieceType p in
  if bool_decide (c ≠ EmptyString) then "=" +:+ c else c.

Definition pieceTypeFromChar (c : string) : PieceType :=
  if bool_decide (c = "q") then Queen
  else if bool_decide (c = "r") then Rook
  else if bool_decide (c = "b") then Bishop
  else if bool_decide (c = "n") then Knight
  else NoPieceType.

(** [strings.Replace] with the empty replacement and no limit: one
    left-to-right scan that drops every non-overlapping occurrence of [sub].
    [skip] counts the characters of the current occurrence that are still
    to be dropped.  An empty [sub] leaves [s] as it is. *)
Fixpoint replaceFrom (sub : string) (skip : nat) (s : string) : string :=
  match s with
  | EmptyString => EmptyString
  | String c rest =>
      match skip with
      | S k => replaceFrom sub k rest
      | O =>
          if String.prefix sub s
          then replaceFrom sub (Nat.pred (String.length sub)) rest
          else String c (replaceFrom sub 0 rest)
      end
  end.

Definition Replace (s sub : string) : string :=
  if bool_decide (sub = EmptyString) then s else replaceFrom sub 0 s.

Definition removeSubstrings (s : string) (subs : list string) : string :=
  foldl Replace s subs.

(** The decorations both legal-move decoders strip. *)
Definition decorations : list string := ["?"; "!"; "+"; "#"; "e.p."].

(** ** UCI notation *)

Definition UCINotation_String : string := "UCI Notation".

Definition UCINotation_Encode (pos : option Position) (m : Move) : string :=
  Square_String (S1 m) +:+ Square_String (S2 m) +:+ PieceType_String (promo m).

(** The end of [UCINotation.Decode], once the position is known not to be
    nil: the tags of the bare move [m] are inferred from the board. *)
Definition UCINotation_inferTags (pos : Position) (m : Move) : Move :=
  let p := board pos (S1 m) in
  let m :=
    if bool_decide (Piece_Type p = King) then
      if bool_decide ((S1 m = E1 ∧ S2 m = G1) ∨ (S1 m = E8 ∧ S2 m = G8))
      then addTag KingSideCastle m
      else if bool_decide ((S1 m = E1 ∧ S2 m = C1) ∨ (S1 m = E8 ∧ S2 m = C8))
      then addTag QueenSideCastle m
      else m
    else if bool_decide (Piece_Type p = Pawn ∧ Some (S2 m) = enPassantSquare pos)
    then addTag Capture (addTag EnPassant m)
    else m in
  let c1 := Piece_Color p in
  let c2 := Piece_Color (board pos (S2 m)) in
  if bool_decide (c2 ≠ NoColor ∧ c1 ≠ c2)
  then addTag Capture m
  else m.

Definition UCINotation_Decode (pos : option Position) (s : string) : result Move :=
  let l := String.length s in
  let err :=
    "chess: failed to decode long algebraic notation text " +:+ quote +:+ s
      +:+ quote +:+ " for position " +:+ fmtPosition pos in
  if (l <? 4) || (5 <? l) then Err err else
  match strToSquareMap !! String.substring 0 2 s with
  | None => Err err
  | Some s1 =>
    match strToSquareMap !! String.substring 2 2 s with
    | None => Err err
    | Some s2 =>
      let promo := if l =? 5
                   then pieceTypeFromChar (String.substring 4 1 s)
                   else NoPieceType in
      if (l =? 5) && bool_decide (promo = NoPieceType) then Err err else
      let m := mkMove s1 s2 promo ∅ in
      match pos with
      | None => Ok m
      | Some pos => Ok (UCINotation_inferTags pos m)
      end
    end
  end.

(** ** Disambiguation of the origin square *)

(** The three flags of the loop of [formS1]: [req], [fileReq], [rankReq]. *)
Record reqFlags := mkReq { req : bool; fileReq : bool; rankReq : bool }.

(** One iteration of the loop of [formS1] over the legal moves, for the
    move [m] whose origin holds the piece [p]. *)
Definition formS1_step (pos : Position) (m : Move) (p : Piece)
    (st : reqFlags) (mv : Move) : reqFlags :=
  if bool_decide (S1 mv ≠ S1 m ∧ S2 mv = S2 m ∧ p = board pos (S1 mv)) then
    let rankReq' :=
      if bool_decide (Square_File (S1 mv) = Square_File (S1 m))
      then true else rankReq st in
    let fileReq' :=
      if bool_decide (Square_Rank (S1 mv) = Square_Rank (S1 m))
      then true else fileReq st in
    mkReq true fileReq' rankReq'
  else st.

Definition formS1_flags (pos : Position) (m : Move) : reqFlags :=
  foldl (formS1_step pos m (board pos (S1 m))) (mkReq false false false)
        (ValidMoves pos).

Definition formS1 (pos : Position) (m : Move) : string :=
  let p := board pos (S1 m) in
  if bool_decide (Piece_Type p = Pawn) then EmptyString else
  let st := formS1_flags pos m in
  let s1 :=
    if fileReq st || negb (rankReq st) && req st
    then File_String (Square_File (S1 m)) else EmptyString in
  if rankReq st then s1 +:+ Rank_String (Square_Rank (S1 m)) else s1.

(** Both legal-move decoders run the same loop, each with its own encoder
    [enc]: the first legal move whose stripped encoding equals the stripped
    input [s] is returned. *)
Fixpoint decodeLoop (enc : Move → string) (s : string) (moves : list Move)
    : option Move :=
  match moves with
  | [] => None
  | m :: rest =>
      let str := removeSubstrings (enc m) decorations in
      if bool_decide (str = s) then Some m else decodeLoop enc s rest
  end.

(** ** A sample position

    White: king g6, rooks a1 and h1.  Black: king g8.  White to move.
    Its 31 legal moves are listed rook a1, rook h1, king; Ra8 mates and
    Rh8 checks. *)

Definition A1 : Square := mkSquare FileA Rank1.
Definition H1 : Square := mkSquare FileH Rank1.
Definition D1 : Square := mkSquare FileD Rank1.
Definition A8 : Square := mkSquare FileA Rank8.
Definition H8 : Square := mkSquare FileH Rank8.
Definition G6 : Square := mkSquare FileG Rank6.

Definition quietMove (s1 s2 : Square) : Move := mkMove s1 s2 NoPieceType ∅.
Definition checkMove (s1 s2 : Square) : Move := mkMove s1 s2 NoPieceType {[Check]}.

Definition rooksBoard (sq : Square) : Piece :=
  if bool_decide (sq = A1) then WhiteRook
  else if bool_decide (sq = H1) then WhiteRook
  else if bool_decide (sq = G6) then WhiteKing
  else if bool_decide (sq = G8) then BlackKing
  else NoPiece.

Definition rooksMoves : list Move :=
  ((λ r, quietMove A1 (mkSquare FileA r)) <$> [Rank2; Rank3; Rank4; Rank5; Rank6; Rank7])
  ++ [checkMove A1 A8]
  ++ ((λ f, quietMove A1 (mkSquare f Rank1)) <$> [FileB; FileC; FileD; FileE; FileF; FileG])
  ++ ((λ r, quietMove H1 (mkSquare FileH r)) <$> [Rank2; Rank3; Rank4; Rank5; Rank6; Rank7])
  ++ [checkMove H1 H8]
  ++ ((λ f, quietMove H1 (mkSquare f Rank1)) <$> [FileG; FileF; FileE; FileD; FileC; FileB])
  ++ (quietMove G6 <$> [mkSquare FileF Rank5; mkSquare FileG Rank5; mkSquare FileH Rank5;
                        mkSquare FileF Rank6; mkSquare FileH Rank6]).

Definition rooksPos : Position :=
  mkPosition rooksBoard None rooksMoves NoMethod "6k1/8/6K1/8/8/8/8/R6R w - - 0 1".

(** The successor of a position under a move, for the sample positions:
    the piece is carried from origin to destination, and the game is over by
    checkmate exactly after Ra8 with the kings on g6 and g8.  The codec
    reads nothing but the status of a successor, so its legal moves and text
    are left empty. *)
Definition sampleUpdate (pos : Position) (m : Move) : Position :=
  mkPosition
    (λ sq, if bool_decide (sq = S2 m) then board pos (S1 m)
           else if bool_decide (sq = S1 m) then NoPiece
           else board pos sq)
    None []
    (if bool_decide (S1 m = A1 ∧ S2 m = A8
                     ∧ board pos G6 = WhiteKing ∧ board pos G8 = BlackKing)
     then Checkmate else NoMethod)
    EmptyString.

(** ** A second sample position

    White: king e1, rooks a1 and h1.  Black: king g7.  White to move, with
    both castling rights.  Its 26 legal moves are listed king, castles,
    rook a1, rook h1; Ra7, Rh7 and Rg1 check. *)

Definition G7 : Square := mkSquare FileG Rank7.

Definition castleBoard (sq : Square) : Piece :=
  if bool_decide (sq = E1) then WhiteKing
  else if bool_decide (sq = A1) then WhiteRook
  else if bool_decide (sq = H1) then WhiteRook
  else if bool_decide (sq = G7) then BlackKing
  else NoPiece.

Definition shortCastle : Move := mkMove E1 G1 NoPieceType {[KingSideCastle]}.
Definition longCastle : Move := mkMove E1 C1 NoPieceType {[QueenSideCastle]}.

Definition castleMoves : list Move :=
  (quietMove E1 <$> [mkSquare FileD Rank1; mkSquare FileF Rank1; mkSquare FileD Rank2;
                     mkSquare FileE Rank2; mkSquare FileF Rank2])
  ++ [shortCastle; longCastle]
  ++ ((λ r, quietMove A1 (mkSquare FileA r)) <$> [Rank2; Rank3; Rank4; Rank5; Rank6])
  ++ [checkMove A1 (mkSquare FileA Rank7); quietMove A1 A8]
  ++ ((λ f, quietMove A1 (mkSquare f Rank1)) <$> [FileB; FileC; FileD])
  ++ ((λ r, quietMove H1 (mkSquare FileH r)) <$> [Rank2; Rank3; Rank4; Rank5; Rank6])
  ++ [checkMove H1 (mkSquare FileH Rank7); quietMove H1 H8]
  ++ [checkMove H1 G1; quietMove H1 (mkSquare FileF Rank1)].

Definition castlePos : Position :=
  mkPosition castleBoard None castleMoves NoMethod "8/6k1/8/8/8/8/8/R3K2R w KQ - 0 1".

(** Moves of the samples: the mating Ra8 and the quiet Rad1 of the first
    position, and a move that no generator makes, tagged as both castles. *)
Definition Ra8 : Move := checkMove A1 A8.
Definition Rad1 : Move := quietMove A1 D1.
Definition bothCastles : Move :=
  mkMove E1 C1 NoPieceType {[KingSideCastle; QueenSideCastle]}.

(** The error text of the Standard Algebraic decoder on the text "Rd1+" in
    the first sample position. *)
Definition Rd1_error : string :=
  "chess: could not decode algebraic notation Rd1 for position 6k1/8/6K1/8/8/8/8/R6R w - - 0 1".

Section Codec.

(** [Position.Update] is declared outside [notation.go]: the codec is
    parametric in it. *)
Variable Update : Position → Move → Position.

(** ** The check or mate suffix *)

Definition getCheckChar (pos : Position) (move : Move) : string :=
  if negb (HasTag move Check) then EmptyString else
  let nextPos := Update pos move in
  if bool_decide (Status nextPos = Checkmate) then "#" else "+".

(** ** Standard Algebraic Notation *)

Definition AlgebraicNotation_String : string := "Algebraic Notation".

Definition AlgebraicNotation_Encode (pos : Position) (m : Move) : string :=
  let checkChar := getCheckChar pos m in
  if HasTag m KingSideCastle then "O-O" +:+ checkChar
  else if HasTag m QueenSideCastle then "O-O-O" +:+ checkChar
  else
    let p := board pos (S1 m) in
    let pChar := charFromPieceType (Piece_Type p) in
    let S1Str := formS1 pos m in
    let capChar :=
      if HasTag m Capture || HasTag m EnPassant then
        if bool_decide (Piece_Type p = Pawn) && bool_decide (S1Str = EmptyString)
        then File_String (Square_File (S1 m)) +:+ "x"
        else "x"
      else EmptyString in
    let promoText := charForPromo (promo m) in
    pChar +:+ S1Str +:+ capChar +:+ Square_String (S2 m) +:+ promoText
      +:+ checkChar.

Definition AlgebraicNotation_Decode (pos : Position) (s : string) : result Move :=
  let s := removeSubstrings s decorations in
  match decodeLoop (AlgebraicNotation_Encode pos) s (ValidMoves pos) with
  | Some m => Ok m
  | None =>
      Err ("chess: could not decode algebraic notation " +:+ s
             +:+ " for position " +:+ Position_String pos)
  end.

(** ** Long Algebraic Notation *)

Definition LongAlgebraicNotation_String : string := "Long Algebraic Notation".

Definition LongAlgebraicNotation_Encode (pos : Position) (m : Move) : string :=
  let checkChar := getCheckChar pos m in
  if HasTag m KingSideCastle then "O-O" +:+ checkChar
  else if HasTag m QueenSideCastle then "O-O-O" +:+ checkChar
  else
    let p := board pos (S1 m) in
    let pChar := charFromPieceType (Piece_Type p) in
    let S1Str := Square_String (S1 m) in
    let capChar :=
      if HasTag m Capture || HasTag m EnPassant then
        if bool_decide (Piece_Type p = Pawn) && bool_decide (S1Str = EmptyString)
        then File_String (Square_File (S1 m)) +:+ "x"
        else "x"
      else EmptyString in
    let promoText := charForPromo (promo m) in
    pChar +:+ S1Str +:+ capChar +:+ Square_String (S2 m) +:+ promoText
      +:+ checkChar.

Definition LongAlgebraicNotation_Decode (pos : Position) (s : string)
    : result Move :=
  let s := removeSubstrings s decorations in
  match decodeLoop (LongAlgebraicNotation_Encode pos) s (ValidMoves pos) with
  | Some m => Ok m
  | None =>
      Err ("chess: could not decode long algebraic notation " +:+ s
             +:+ " for position " +:+ Position_String pos)
  end.

End Codec.

(** ** Vocabulary of the statements *)

(** The promotion letters UCI accepts. *)
Definition promoLetters : list string := ["q"; "r"; "b"; "n"].

(** A text UCI refuses: wrong length, an unknown square text in characters
    0-1 or 2-3, or a fifth character that is no promotion letter. *)
Definition UCI_malformed (s : string) : Prop :=
  (String.length s ≠ 4 ∧ String.length s ≠ 5)
  ∨ strToSquareMap !! String.substring 0 2 s = None
  ∨ strToSquareMap !! String.substring 2 2 s = None
  ∨ (String.length s = 5 ∧ String.substring 4 1 s ∉ promoLetters).

#[global] Instance UCI_malformed_dec (s : string) : Decision (UCI_malformed s).
Proof. unfold UCI_malformed. apply _. Defined.

(** The promotion piece a well-formed UCI text denotes. *)
Definition UCI_promo (s : string) (p : PieceType) : Prop :=
  (String.length s = 4 ∧ p = NoPieceType)
  ∨ (String.length s = 5 ∧
     ((String.substring 4 1 s = "q" ∧ p = Queen)
      ∨ (String.substring 4 1 s = "r" ∧ p = Rook)
      ∨ (String.substring 4 1 s = "b" ∧ p = Bishop)
      ∨ (String.substring 4 1 s = "n" ∧ p = Knight))).

(** The tags UCI decoding infers for a move from [s1] to [s2] in [pos]. *)
Definition UCI_tag (pos : Position) (s1 s2 : Square) (t : MoveTag) : Prop :=
  let p := board pos s1 in
  match t with
  | KingSideCastle =>
      Piece_Type p = King ∧ ((s1 = E1 ∧ s2 = G1) ∨ (s1 = E8 ∧ s2 = G8))
  | QueenSideCastle =>
      Piece_Type p = King ∧ ((s1 = E1 ∧ s2 = C1) ∨ (s1 = E8 ∧ s2 = C8))
  | EnPassant =>
      Piece_Type p = Pawn ∧ enPassantSquare pos = Some s2
  | Capture =>
      (Piece_Type p = Pawn ∧ enPassantSquare pos = Some s2)
      ∨ (Piece_Color (board pos s2) ≠ NoColor
         ∧ Piece_Color p ≠ Piece_Color (board pos s2))
  | Check => False
  end.

(** Decoration stripping, as both legal-move decoders apply it. *)
Definition strip (s : string) : string := removeSubstrings s decorations.

(** Every character of [s] satisfies [P]. *)
Fixpoint allChars (P : ascii → bool) (s : string) : bool :=
  match s with
  | EmptyString => true
  | String c rest => P c && allChars P rest
  end.

(** The character [c] occurs in [s]. *)
Fixpoint inString (c : ascii) (s : string) : bool :=
  match s with
  | EmptyString => false
  | String a rest => bool_decide (a = c) || inString c rest
  end.

(** The characters of an encoding before its check or mate suffix. *)
Definition bodyChar (c : ascii) : bool := inString c "KQRBNabcdefgh12345678x=O-".

(** The one-character decorations. *)
Definition markChar (c : ascii) : bool := inString c "?!+#".

(** Characters that are not '.', and characters that are no one-character
    decoration. *)
Definition notDot (c : ascii) : bool := negb (bool_decide (c = "."%char)).
Definition noMark (c : ascii) : bool := negb (markChar c).

(** The test the loop of [formS1] applies to a legal move [mv]. *)
Definition formS1_hit (pos : Position) (m mv : Move) : Prop :=
  S1 mv ≠ S1 m ∧ S2 mv = S2 m ∧ board pos (S1 m) = board pos (S1 mv).

(** [dropChar a s] is [s] without the character [a]. *)
Fixpoint dropChar (a : ascii) (s : string) : string :=
  match s with
  | EmptyString => EmptyString
  | String c rest =>
      if bool_decide (a = c) then dropChar a rest else String c (dropChar a rest)
  end.

(** [dropMarks s] is [s] without its one-character decorations. *)
Fixpoint dropMarks (s : string) : string :=
  match s with
  | EmptyString => EmptyString
  | String c rest => if markChar c then dropMarks rest else String c (dropMarks rest)
  end.

(** [ins_ep t u]: [u] is [t] with any number of "e.p." inserted, each at a
    position of [t]. *)
Inductive ins_ep : string → string → Prop :=
  | ins_ep_nil : ins_ep EmptyString EmptyString
  | ins_ep_keep c t u : ins_ep t u → ins_ep (String c t) (String c u)
  | ins_ep_here t u : ins_ep t u → ins_ep t ("e.p." +:+ u).

(** [ins_marks u s]: [s] is [u] with any number of the characters
    "?", "!", "+", "#" inserted anywhere. *)
Inductive ins_marks : string → string → Prop :=
  | ins_marks_nil : ins_marks EmptyString EmptyString
  | ins_marks_keep c u s : ins_marks u s → ins_marks (String c u) (String c s)
  | ins_marks_here c u s : markChar c = true → ins_marks u s → ins_marks u (String c s).

(** [decorated t s]: [s] is the text [t] with decorations inserted:
    "e.p." at positions of [t], and the one-character decorations anywhere,
    also inside an inserted "e.p.". *)
Definition decorated (t s : string) : Prop :=
  ∃ u, ins_ep t u ∧ ins_marks u s.

(** [first_with P l m]: [m] is the first element of [l] that satisfies [P]. *)
Definition first_with (P : Move → Prop) (l : list Move) (m : Move) : Prop :=
  ∃ l1 l2, l = l1 ++ m :: l2 ∧ P m ∧ Forall (λ x, ¬ P x) l1.

(** A competitor of [m] for the disambiguation: a legal move of a piece of
    the same type and colour, to the same destination, from another
    origin. *)
Definition competitor (pos : Position) (m mv : Move) : Prop :=
  mv ∈ ValidMoves pos
  ∧ S1 mv ≠ S1 m ∧ S2 mv = S2 m
  ∧ Piece_Type (board pos (S1 mv)) = Piece_Type (board pos (S1 m))
  ∧ Piece_Color (board pos (S1 mv)) = Piece_Color (board pos (S1 m)).

(** A competitor on the file of [m]'s origin makes the rank necessary; one
    on the rank of [m]'s origin makes the file necessary. *)
Definition rankNeeded (pos : Position) (m : Move) : Prop :=
  ∃ mv, competitor pos m mv ∧ Square_File (S1 mv) = Square_File (S1 m).
Definition fileNeeded (pos : Position) (m : Move) : Prop :=
  ∃ mv, competitor pos m mv ∧ Square_Rank (S1 mv) = Square_Rank (S1 m).

(** The qualifier made of the origin file and the origin rank of [m], each
    present if asked for. *)
Definition qualifier (m : Move) (withFile withRank : bool) : string :=
  (if withFile then File_String (Square_File (S1 m)) else EmptyString)
  +:+ (if withRank then Rank_String (Square_Rank (S1 m)) else EmptyString).

(** What a legal-move decoder returns, for its encoder [enc]. *)
Definition decodes_first (enc : Move → string) (pos : Position) (s : string)
    (r : result Move) : Prop :=
  (∃ m, r = Ok m ∧ m ∈ ValidMoves pos
        ∧ first_with (λ x, strip (enc x) = strip s) (ValidMoves pos) m)
  ∨ (∃ e, r = Err e ∧ Forall (λ x, strip (enc x) ≠ strip s) (ValidMoves pos)).

(** A move without its tags, and the promotion pieces UCI can write. *)
Definition bareMove (m : Move) : Move := mkMove (S1 m) (S2 m) (promo m) ∅.
Definition uciPromos : list PieceType := [NoPieceType; Queen; Rook; Bishop; Knight].

(** [occurs sub s]: the text [sub] occurs in [s]; [containsText] decides
    it. *)
Definition occurs (sub s : string) : Prop := ∃ a b, s = a +:+ sub +:+ b.

Fixpoint containsText (sub s : string) : bool :=
  String.prefix sub s
  || match s with
     | EmptyString => false
     | String _ rest => containsText sub rest
     end.

(** ** Characters, marks and the bodies of the encodings *)

(** The character of a file letter and of a rank digit. *)
Definition File_char (f : File) : ascii :=
  match f with
  | FileA => "a" | FileB => "b" | FileC => "c" | FileD => "d"
  | FileE => "e" | FileF => "f" | FileG => "g" | FileH => "h"
  end%char.
Definition Rank_char (r : Rank) : ascii :=
  match r with
  | Rank1 => "1" | Rank2 => "2" | Rank3 => "3" | Rank4 => "4"
  | Rank5 => "5" | Rank6 => "6" | Rank7 => "7" | Rank8 => "8"
  end%char.

(** [captures m]: the encoders write the capture mark for [m];
    [castles m]: they write a castle. *)
Definition captures (m : Move) : bool := HasTag m Capture || HasTag m EnPassant.
Definition castles (m : Move) : bool :=
  HasTag m KingSideCastle || HasTag m QueenSideCastle.

(** The encodings without their check or mate suffix. *)
Definition AlgebraicNotation_body (pos : Position) (m : Move) : string :=
  if HasTag m KingSideCastle then "O-O"
  else if HasTag m QueenSideCastle then "O-O-O"
  else
    let p := board pos (S1 m) in
    charFromPieceType (Piece_Type p) +:+ formS1 pos m
    +:+ (if captures m then
           if bool_decide (Piece_Type p = Pawn) && bool_decide (formS1 pos m = EmptyString)
           then File_String (Square_File (S1 m)) +:+ "x" else "x"
         else EmptyString)
    +:+ Square_String (S2 m) +:+ charForPromo (promo m).

Definition LongAlgebraicNotation_body (pos : Position) (m : Move) : string :=
  if HasTag m KingSideCastle then "O-O"
  else if HasTag m QueenSideCastle then "O-O-O"
  else
    charFromPieceType (Piece_Type (board pos (S1 m))) +:+ Square_String (S1 m)
    +:+ (if captures m then "x" else EmptyString)
    +:+ Square_String (S2 m) +:+ charForPromo (promo m).

(** A promotion text is empty or starts with '='. *)
Definition promoShape (q : string) : Prop := q = EmptyString ∨ ∃ t, q = String "=" t.

(** Characters that are no piece letter and no 'O'. *)
Definition lowChar (c : ascii) : bool := negb (inString c "KQRBNO").

(** The first sample position with its legal moves listed in the opposite
    order. *)
Definition rooksPosReversed : Position :=
  mkPosition rooksBoard None (reverse rooksMoves) NoMethod
    "6k1/8/6K1/8/8/8/8/R6R w - - 0 1".

(** ** A third sample position

    White: king a1, pawns b4 and d4.  Black: king h8, knight c5.  White to
    move.  Its 7 legal moves are listed king, pawn b4, pawn d4; both pawns
    can take the knight. *)

Definition B4 : Square := mkSquare FileB Rank4.
Definition D4 : Square := mkSquare FileD Rank4.
Definition C5 : Square := mkSquare FileC Rank5.

Definition pawnsBoard (sq : Square) : Piece :=
  if bool_decide (sq = A1) then WhiteKing
  else if bool_decide (sq = B4) then WhitePawn
  else if bool_decide (sq = D4) then WhitePawn
  else if bool_decide (sq = C5) then BlackKnight
  else if bool_decide (sq = H8) then BlackKing
  else NoPiece.

Definition bxc5 : Move := mkMove B4 C5 NoPieceType {[Capture]}.
Definition dxc5 : Move := mkMove D4 C5 NoPieceType {[Capture]}.

Definition pawnsMoves : list Move :=
  (quietMove A1 <$> [mkSquare FileA Rank2; mkSquare FileB Rank1; mkSquare FileB Rank2])
  ++ [quietMove B4 (mkSquare FileB Rank5); bxc5;
      quietMove D4 (mkSquare FileD Rank5); dxc5].

Definition pawnsPos : Position :=
  mkPosition pawnsBoard None pawnsMoves NoMethod "7k/8/8/2n5/1P1P4/8/8/K7 w - - 0 1".

(** ** What a legal-move list is

    The list of [ValidMoves] is made outside [notation.go].  These are the
    properties of such a list that the round trips of the legal-move
    notations rest on; each speaks of the list and the board only.

    - [legalPromos]: a legal move promotes to nothing, or to a Queen, Rook,
      Bishop or Knight;
    - [squaresDetermine]: no two legal moves share origin, destination and
      promotion;
    - [oneCastlePerSide]: at most one legal move castles on each side;
    - [originsOccupied]: a legal move starts on a square that holds a piece;
    - [oneSideMoves]: the legal moves are moves of one colour;
    - [pawnsDetermined]: of the pawns, only one can advance to a given
      square, and only one can capture on it from a given file. *)
Definition legalPromos (pos : Position) : Prop :=
  ∀ x, x ∈ ValidMoves pos → promo x ∈ uciPromos.
Definition squaresDetermine (pos : Position) : Prop :=
  ∀ x y, x ∈ ValidMoves pos → y ∈ ValidMoves pos →
         S1 x = S1 y → S2 x = S2 y → promo x = promo y → x = y.
Definition oneCastlePerSide (pos : Position) : Prop :=
  ∀ x y, x ∈ ValidMoves pos → y ∈ ValidMoves pos →
         castles x = true → castles y = true →
         HasTag x KingSideCastle = HasTag y KingSideCastle → x = y.
Definition originsOccupied (pos : Position) : Prop :=
  ∀ x, x ∈ ValidMoves pos → Piece_Type (board pos (S1 x)) ≠ NoPieceType.
Definition oneSideMoves (pos : Position) : Prop :=
  ∀ x y, x ∈ ValidMoves pos → y ∈ ValidMoves pos →
         Piece_Color (board pos (S1 x)) = Piece_Color (board pos (S1 y)).
Definition pawnsDetermined (pos : Position) : Prop :=
  ∀ x y, x ∈ ValidMoves pos → y ∈ ValidMoves pos →
         Piece_Type (board pos (S1 x)) = Pawn → Piece_Type (board pos (S1 y)) = Pawn →
         S2 x = S2 y → captures x = captures y →
         (captures x = true → Square_File (S1 x) = Square_File (S1 y)) →
         S1 x = S1 y.

(** * Properties *)

(** ** Strings and stripping *)

Lemma prefix_empty (s : string) : String.prefix EmptyString s = true.
Proof. destruct s; reflexivity. Qed.

Lemma app_String (c : ascii) (s t : string) :
  String c s +:+ t = String c (s +:+ t).
Proof. reflexivity. Qed.

Lemma app_empty_l (t : string) : EmptyString +:+ t = t.
Proof. reflexivity. Qed.

Lemma app_empty_r (s : string) : s +:+ EmptyString = s.
Proof. induction s as [|c s IH]; [reflexivity|]. by rewrite app_String, IH. Qed.

Lemma str_app_assoc (s t u : string) : (s +:+ t) +:+ u = s +:+ (t +:+ u).
Proof.
  induction s as [|c s IH]; [reflexivity|]. rewrite !app_String. by rewrite IH.
Qed.

Lemma allChars_app (P : ascii → bool) (s t : string) :
  allChars P (s +:+ t) = allChars P s && allChars P t.
Proof.
  induction s as [|c s IH]; [reflexivity|].
  rewrite app_String. cbn [allChars]. rewrite IH. apply andb_assoc.
Qed.

Lemma allChars_impl (P Q : ascii → bool) (s : string) :
  (∀ c, P c = true → Q c = true) → allChars P s = true → allChars Q s = true.
Proof.
  intros HPQ. induction s as [|c s IH]; [reflexivity|]. cbn [allChars].
  rewrite !andb_true_iff. intros [? ?]. auto.
Qed.

(** Dropping one character: [Replace] with a one-character [sub]. *)
Lemma replaceFrom_char (a : ascii) (s : string) :
  replaceFrom (String a EmptyString) 0 s
  = dropChar a s.
Proof.
  induction s as [|c s IH]; [reflexivity|].
  cbn [replaceFrom String.prefix String.length Nat.pred dropChar].
  destruct (ascii_dec a c) as [->|Hne].
  - rewrite prefix_empty, bool_decide_eq_true_2 by done. exact IH.
  - rewrite bool_decide_eq_false_2 by done. by rewrite IH.
Qed.

Lemma Replace_char (a : ascii) (s : string) :
  Replace s (String a EmptyString)
  = dropChar a s.
Proof. unfold Replace. rewrite bool_decide_eq_false_2 by done. apply replaceFrom_char. Qed.

(** Stripping drops the four one-character decorations, then "e.p.". *)
Lemma strip_dropMarks (s : string) :
  strip s = replaceFrom "e.p." 0 (dropMarks s).
Proof.
  unfold strip, removeSubstrings, decorations. cbn [foldl].
  rewrite !Replace_char. unfold Replace at 1.
  rewrite bool_decide_eq_false_2 by done. f_equal.
  induction s as [|c s IH]; [reflexivity|].
  cbn [dropMarks dropChar]. rewrite <- IH. unfold markChar. cbn [inString].
  repeat case_bool_decide; subst;
    repeat (cbn [orb dropChar]; rewrite ?bool_decide_eq_false_2 by done);
    try reflexivity; congruence.
Qed.

(** A text without '.' has no occurrence of "e.p.". *)
Lemma prefix_ep_false (c : ascii) (s : string) :
  (∀ b rest, s = String b rest → b ≠ "."%char) →
  String.prefix "e.p." (String c s) = false.
Proof.
  intros Hs. cbn [String.prefix].
  destruct (ascii_dec "e" c) as [_|_]; [|reflexivity].
  destruct s as [|b rest]; [reflexivity|]. cbn [String.prefix].
  destruct (ascii_dec "." b) as [<-|_]; [|reflexivity].
  by destruct (Hs _ _ eq_refl).
Qed.

Lemma allChars_head (P : ascii → bool) (s : string) (b : ascii) (rest : string) :
  allChars P s = true → s = String b rest → P b = true.
Proof. intros H ->. cbn [allChars] in H. by apply andb_true_iff in H as [? _]. Qed.

Lemma notDot_ne (b : ascii) : notDot b = true → b ≠ "."%char.
Proof. unfold notDot. rewrite negb_true_iff. apply bool_decide_eq_false_1. Qed.

Lemma replaceFrom_ep_nodot (s : string) :
  allChars notDot s = true → replaceFrom "e.p." 0 s = s.
Proof.
  induction s as [|c s IH]; [reflexivity|].
  cbn [allChars]. rewrite andb_true_iff. intros [_ Hs].
  cbn [replaceFrom]. rewrite prefix_ep_false.
  - by rewrite IH.
  - intros b rest E. apply notDot_ne. by eapply allChars_head.
Qed.

Lemma ins_ep_head (t u : string) :
  ins_ep t u → allChars notDot t = true →
  ∀ b rest, u = String b rest → b ≠ "."%char.
Proof.
  intros H. induction H as [|c t u _ _|t u _ _]; intros Ht b rest E.
  - discriminate.
  - injection E as <- _. apply notDot_ne. by eapply allChars_head.
  - injection E as <- _. discriminate.
Qed.

Lemma replaceFrom_ins_ep (t u : string) :
  ins_ep t u → allChars notDot t = true → replaceFrom "e.p." 0 u = t.
Proof.
  intros H. induction H as [|c t u H IH|t u H IH]; intros Ht.
  - reflexivity.
  - pose proof Ht as Ht'. cbn [allChars] in Ht'.
    apply andb_true_iff in Ht' as [_ Ht'].
    cbn [replaceFrom]. rewrite prefix_ep_false by (by eapply ins_ep_head).
    by rewrite IH.
  - change ("e.p." +:+ u) with (String "e" (String "." (String "p" (String "." u)))).
    cbn [replaceFrom String.prefix]. cbn. rewrite prefix_empty. cbn. by apply IH.
Qed.

Lemma dropMarks_ins_marks (u s : string) :
  ins_marks u s → allChars noMark u = true → dropMarks s = u.
Proof.
  intros H. induction H as [|c u s H IH|c u s Hc H IH]; intros Hu.
  - reflexivity.
  - cbn [allChars] in Hu. apply andb_true_iff in Hu as [Hc Hu].
    cbn [dropMarks]. unfold noMark in Hc. apply negb_true_iff in Hc.
    rewrite Hc. by rewrite IH.
  - cbn [dropMarks]. rewrite Hc. by apply IH.
Qed.

Lemma ins_ep_noMark (t u : string) :
  ins_ep t u → allChars noMark t = true → allChars noMark u = true.
Proof.
  intros H. induction H as [|c t u H IH|t u H IH]; intros Ht.
  - reflexivity.
  - cbn [allChars] in *. apply andb_true_iff in Ht as [-> Ht]. by apply IH.
  - rewrite allChars_app. rewrite IH by done. reflexivity.
Qed.

Lemma bodyChar_notDot (c : ascii) : bodyChar c = true → notDot c = true.
Proof. destruct c as [[] [] [] [] [] [] [] []]; vm_compute; congruence. Qed.

Lemma bodyChar_noMark (c : ascii) : bodyChar c = true → noMark c = true.
Proof. destruct c as [[] [] [] [] [] [] [] []]; vm_compute; congruence. Qed.

(** Stripping undoes decoration of a text made of body characters. *)
Lemma strip_decorated (t s : string) :
  allChars bodyChar t = true → decorated t s → strip s = t.
Proof.
  intros Ht (u & Hep & Hmarks). rewrite strip_dropMarks.
  assert (allChars notDot t = true) by (eapply allChars_impl; [apply bodyChar_notDot|done]).
  assert (allChars noMark t = true) by (eapply allChars_impl; [apply bodyChar_noMark|done]).
  rewrite (dropMarks_ins_marks u s) by eauto using ins_ep_noMark.
  by apply replaceFrom_ins_ep.
Qed.

Lemma ins_ep_refl (t : string) : ins_ep t t.
Proof. induction t; constructor; done. Qed.

Lemma ins_marks_refl (t : string) : ins_marks t t.
Proof. induction t; constructor; done. Qed.

Lemma decorated_refl (t : string) : decorated t t.
Proof. exists t. split; [apply ins_ep_refl | apply ins_marks_refl]. Qed.

Lemma ins_marks_suffix (t sfx : string) :
  allChars markChar sfx = true → ins_marks t (t +:+ sfx).
Proof.
  intros Hs. induction t as [|c t IH].
  - rewrite app_empty_l. induction sfx as [|c sfx IH]; [constructor|].
    cbn [allChars] in Hs. apply andb_true_iff in Hs as [? ?].
    apply ins_marks_here; auto.
  - rewrite app_String. by constructor.
Qed.

(** Stripping an encoding removes exactly its check or mate suffix. *)
Lemma strip_body_suffix (body sfx : string) :
  allChars bodyChar body = true → allChars markChar sfx = true →
  strip (body +:+ sfx) = body.
Proof.
  intros Hb Hs. apply strip_decorated; [done|].
  exists body. split; [apply ins_ep_refl | by apply ins_marks_suffix].
Qed.

(** ** The alphabet of the encoders *)

Lemma File_String_body (f : File) : allChars bodyChar (File_String f) = true.
Proof. by destruct f. Qed.

Lemma Rank_String_body (r : Rank) : allChars bodyChar (Rank_String r) = true.
Proof. by destruct r. Qed.

Lemma Square_String_body (sq : Square) : allChars bodyChar (Square_String sq) = true.
Proof.
  unfold Square_String. by rewrite allChars_app, File_String_body, Rank_String_body.
Qed.

Lemma charFromPieceType_body (p : PieceType) :
  allChars bodyChar (charFromPieceType p) = true.
Proof. by destruct p. Qed.

Lemma charForPromo_body (p : PieceType) : allChars bodyChar (charForPromo p) = true.
Proof. by destruct p. Qed.

Lemma formS1_body (pos : Position) (m : Move) : allChars bodyChar (formS1 pos m) = true.
Proof.
  unfold formS1. case_bool_decide; [reflexivity|].
  destruct (rankReq _), (fileReq _ || _);
    rewrite ?allChars_app, ?File_String_body, ?Rank_String_body; reflexivity.
Qed.

Ltac body_chars :=
  rewrite ?allChars_app, ?File_String_body, ?Rank_String_body,
    ?Square_String_body, ?charFromPieceType_body, ?charForPromo_body,
    ?formS1_body;
  reflexivity.

Section CodecFacts.

Variable Update : Position → Move → Position.

Lemma getCheckChar_cases (pos : Position) (m : Move) :
  (HasTag m Check = false ∧ getCheckChar Update pos m = EmptyString)
  ∨ (HasTag m Check = true ∧ Status (Update pos m) = Checkmate
     ∧ getCheckChar Update pos m = "#")
  ∨ (HasTag m Check = true ∧ Status (Update pos m) ≠ Checkmate
     ∧ getCheckChar Update pos m = "+").
Proof.
  unfold getCheckChar. destruct (HasTag m Check); cbn [negb]; [|by left].
  right. case_bool_decide; [left | right]; done.
Qed.

Lemma getCheckChar_marks (pos : Position) (m : Move) :
  allChars markChar (getCheckChar Update pos m) = true.
Proof.
  destruct (getCheckChar_cases pos m) as [[_ ->]|[(_ & _ & ->)|(_ & _ & ->)]];
    reflexivity.
Qed.

(** Both encoders produce body characters followed by the suffix. *)
Lemma AlgebraicNotation_Encode_body (pos : Position) (m : Move) :
  ∃ body, AlgebraicNotation_Encode Update pos m = body +:+ getCheckChar Update pos m
          ∧ allChars bodyChar body = true.
Proof.
  unfold AlgebraicNotation_Encode.
  destruct (HasTag m KingSideCastle); [by eexists|].
  destruct (HasTag m QueenSideCastle); [by eexists|].
  cbv zeta. rewrite <- !str_app_assoc. eexists. split; [reflexivity|].
  destruct (HasTag m Capture || HasTag m EnPassant); [|body_chars].
  destruct (bool_decide _ && bool_decide _); body_chars.
Qed.

Lemma LongAlgebraicNotation_Encode_body (pos : Position) (m : Move) :
  ∃ body, LongAlgebraicNotation_Encode Update pos m
          = body +:+ getCheckChar Update pos m
          ∧ allChars bodyChar body = true.
Proof.
  unfold LongAlgebraicNotation_Encode.
  destruct (HasTag m KingSideCastle); [by eexists|].
  destruct (HasTag m QueenSideCastle); [by eexists|].
  cbv zeta. rewrite <- !str_app_assoc. eexists. split; [reflexivity|].
  destruct (HasTag m Capture || HasTag m EnPassant); [|body_chars].
  destruct (bool_decide _ && bool_decide _); body_chars.
Qed.

End CodecFacts.

(** ** The decoding loop *)

Lemma decodeLoop_Some (enc : Move → string) (s : string) (l : list Move) (m : Move) :
  decodeLoop enc s l = Some m ↔ first_with (λ x, strip (enc x) = s) l m.
Proof.
  unfold first_with. induction l as [|x l IH]; cbn [decodeLoop].
  - split; [discriminate|]. intros (l1 & l2 & E & _). by destruct l1.
  - fold (strip (enc x)). case_bool_decide as Hx.
    + split.
      * intros [= <-]. exists [], l. by repeat split.
      * intros (l1 & l2 & E & Hm & Hl1). destruct l1 as [|y l1].
        -- by injection E as ->.
        -- injection E as <- _. by apply Forall_cons in Hl1 as [? _].
    + rewrite IH. split.
      * intros (l1 & l2 & -> & Hm & Hl1). exists (x :: l1), l2.
        repeat split; [done|]. by constructor.
      * intros (l1 & l2 & E & Hm & Hl1). destruct l1 as [|y l1].
        -- injection E as -> _. done.
        -- injection E as <- ->. apply Forall_cons in Hl1 as [_ ?]. eauto.
Qed.

Lemma decodeLoop_None (enc : Move → string) (s : string) (l : list Move) :
  decodeLoop enc s l = None ↔ Forall (λ x, strip (enc x) ≠ s) l.
Proof.
  induction l as [|x l IH]; cbn [decodeLoop].
  - split; [constructor | done].
  - fold (strip (enc x)). rewrite Forall_cons. case_bool_decide as Hx.
    + split; [discriminate | by intros [? _]].
    + rewrite IH. tauto.
Qed.

Lemma first_with_elem (P : Move → Prop) (l : list Move) (m : Move) :
  first_with P l m → m ∈ l ∧ P m.
Proof.
  intros (l1 & l2 & -> & HP & _). split; [|done].
  apply elem_of_app. right. apply elem_of_cons. by left.
Qed.


(** ** Disambiguation *)

Lemma Piece_eq_iff (p q : Piece) :
  p = q ↔ Piece_Type p = Piece_Type q ∧ Piece_Color p = Piece_Color q.
Proof. split; [by intros -> | destruct p, q; cbn; intros [? ?]; congruence]. Qed.

Section Disambiguation.

Variables (pos : Position) (m : Move).

Lemma formS1_fold (l : list Move) (st : reqFlags) :
  let st' := foldl (formS1_step pos m (board pos (S1 m))) st l in
  (req st' = true ↔ req st = true ∨ ∃ mv, mv ∈ l ∧ formS1_hit pos m mv)
  ∧ (rankReq st' = true ↔
       rankReq st = true
       ∨ ∃ mv, mv ∈ l ∧ formS1_hit pos m mv ∧ Square_File (S1 mv) = Square_File (S1 m))
  ∧ (fileReq st' = true ↔
       fileReq st = true
       ∨ ∃ mv, mv ∈ l ∧ formS1_hit pos m mv ∧ Square_Rank (S1 mv) = Square_Rank (S1 m)).
Proof.
  revert st. induction l as [|x l IH]; intros st; cbn [foldl].
  - repeat split; auto; intros [?|(mv & Hin & _)]; auto; by apply elem_of_nil in Hin.
  - destruct (IH (formS1_step pos m (board pos (S1 m)) st x)) as (Hreq & Hrank & Hfile).
    cbv zeta. rewrite Hreq, Hrank, Hfile. clear IH Hreq Hrank Hfile.
    unfold formS1_step. fold (formS1_hit pos m x).
    setoid_rewrite elem_of_cons.
    case_bool_decide as Hx; cbn [req rankReq fileReq].
    + repeat split; repeat case_bool_decide; naive_solver.
    + repeat split; naive_solver.
Qed.

Lemma hit_competitor (mv : Move) :
  mv ∈ ValidMoves pos ∧ formS1_hit pos m mv ↔ competitor pos m mv.
Proof.
  unfold formS1_hit, competitor. rewrite Piece_eq_iff. intuition congruence.
Qed.

Lemma formS1_flags_spec :
  let st := formS1_flags pos m in
  (req st = true ↔ ∃ mv, competitor pos m mv)
  ∧ (rankReq st = true ↔
       ∃ mv, competitor pos m mv ∧ Square_File (S1 mv) = Square_File (S1 m))
  ∧ (fileReq st = true ↔
       ∃ mv, competitor pos m mv ∧ Square_Rank (S1 mv) = Square_Rank (S1 m)).
Proof.
  destruct (formS1_fold (ValidMoves pos) (mkReq false false false))
    as (Hreq & Hrank & Hfile).
  cbv zeta. unfold formS1_flags. rewrite Hreq, Hrank, Hfile.
  cbn [req rankReq fileReq]. setoid_rewrite <- hit_competitor.
  repeat split.
  - intros [?|(mv & ? & ?)]; [done | eauto].
  - intros (mv & ? & ?); eauto.
  - intros [?|(mv & ? & ? & ?)]; [done | eauto].
  - intros (mv & [? ?] & ?); eauto.
  - intros [?|(mv & ? & ? & ?)]; [done | eauto].
  - intros (mv & [? ?] & ?); eauto.
Qed.

End Disambiguation.

(** ** Symbol tables *)

(** The known square texts are exactly the texts of the 64 squares. *)
Lemma strToSquareMap_lookup (t : string) (sq : Square) :
  strToSquareMap !! t = Some sq ↔ t = Square_String sq.
Proof.
  split.
  - intros H. apply elem_of_list_to_map_2 in H.
    apply list_elem_of_fmap in H as (sq' & [= -> ->] & _). reflexivity.
  - intros ->. destruct sq as [[] []]; vm_compute; reflexivity.
Qed.

Lemma pieceTypeFromChar_spec (c : string) (p : PieceType) :
  pieceTypeFromChar c = p →
  (c = "q" ∧ p = Queen) ∨ (c = "r" ∧ p = Rook) ∨ (c = "b" ∧ p = Bishop)
  ∨ (c = "n" ∧ p = Knight)
  ∨ ((c ∉ promoLetters) ∧ p = NoPieceType).
Proof.
  unfold pieceTypeFromChar. intros <-.
  repeat case_bool_decide; subst; auto 10.
  do 4 right. split; [|done]. intros Hin.
  repeat (apply elem_of_cons in Hin as [?|Hin]; [done|]).
  by apply elem_of_nil in Hin.
Qed.

Lemma pieceTypeFromChar_None (c : string) :
  pieceTypeFromChar c = NoPieceType ↔ c ∉ promoLetters.
Proof.
  split.
  - intros H. apply pieceTypeFromChar_spec in H.
    destruct H as [[_ ?]|[[_ ?]|[[_ ?]|[[_ ?]|[? _]]]]]; done.
  - intros H. unfold pieceTypeFromChar.
    repeat case_bool_decide; subst; try done; exfalso; apply H;
      unfold promoLetters; rewrite !elem_of_cons; auto.
Qed.

(** ** UCI notation *)

Lemma UCI_Decode_Err_iff (pos : option Position) (s : string) :
  (∃ e, UCINotation_Decode pos s = Err e) ↔ UCI_malformed s.
Proof.
  unfold UCINotation_Decode, UCI_malformed.
  destruct (String.length s <? 4) eqn:H4; cbn [orb].
  { apply Nat.ltb_lt in H4. split; [intros _; left; lia | eauto]. }
  destruct (5 <? String.length s) eqn:H5; cbn [orb].
  { apply Nat.ltb_lt in H5. split; [intros _; left; lia | eauto]. }
  apply Nat.ltb_ge in H4, H5.
  destruct (strToSquareMap !! String.substring 0 2 s) as [s1|] eqn:E1';
    [|split; eauto].
  destruct (strToSquareMap !! String.substring 2 2 s) as [s2|] eqn:E2';
    [|split; eauto].
  destruct (String.length s =? 5) eqn:H55; cbn [andb].
  - apply Nat.eqb_eq in H55. case_bool_decide as Hp.
    + apply pieceTypeFromChar_None in Hp. split; eauto 10.
    + split.
      * intros [e He]. destruct pos; discriminate.
      * intros [[? ?]|[?|[?|[_ Hn]]]]; try congruence; try lia.
        apply pieceTypeFromChar_None in Hn. done.
  - apply Nat.eqb_neq in H55. split.
    + intros [e He]. destruct pos; discriminate.
    + intros [[? ?]|[?|[?|[? _]]]]; try congruence; lia.
Qed.

(** What [UCINotation_inferTags] adds to a move: origin, destination and
    promotion are kept, and the tags are the old ones together with the
    inferred ones. *)
Lemma UCI_inferTags_spec (pos : Position) (m : Move) :
  ∃ tg, UCINotation_inferTags pos m = mkMove (S1 m) (S2 m) (promo m) tg
        ∧ ∀ t, t ∈ tg ↔ t ∈ tags m ∨ UCI_tag pos (S1 m) (S2 m) t.
Proof.
  unfold UCINotation_inferTags, UCI_tag, addTag. destruct m as [s1 s2 p tg0].
  cbn [S1 S2 promo tags].
  repeat case_bool_decide; cbn [S1 S2 promo tags];
    (eexists; split; [reflexivity|]); intros t;
    rewrite ?elem_of_union, ?elem_of_singleton.
  all: destruct t; unfold E1, G1, E8, G8, C1, C8 in *;
    (split; [intros Ht | intros Ht]; intuition congruence).
Qed.

Lemma UCI_Decode_Ok (pos : option Position) (s : string) :
  ¬ UCI_malformed s →
  ∃ s1 s2 p,
    strToSquareMap !! String.substring 0 2 s = Some s1
    ∧ strToSquareMap !! String.substring 2 2 s = Some s2
    ∧ UCI_promo s p
    ∧ ∃ tg, UCINotation_Decode pos s = Ok (mkMove s1 s2 p tg)
      ∧ match pos with
        | None => tg = ∅
        | Some pos => ∀ t, t ∈ tg ↔ UCI_tag pos s1 s2 t
        end.
Proof.
  intros Hwf. unfold UCI_malformed in Hwf.
  apply Decidable.not_or in Hwf as [Hlen Hwf]. apply Decidable.not_or in Hwf as [H1 Hwf].
  apply Decidable.not_or in Hwf as [H2 H5].
  destruct (strToSquareMap !! String.substring 0 2 s) as [s1|] eqn:E1'; [|congruence].
  destruct (strToSquareMap !! String.substring 2 2 s) as [s2|] eqn:E2'; [|congruence].
  clear H1 H2.
  assert (Hl : String.length s = 4 ∨ String.length s = 5) by lia.
  set (p := if String.length s =? 5
            then pieceTypeFromChar (String.substring 4 1 s) else NoPieceType).
  assert (Hp : UCI_promo s p ∧ ¬ (String.length s = 5 ∧ p = NoPieceType)).
  { subst p. destruct Hl as [Hl|Hl]; rewrite Hl; simpl.
    - split; [left; auto | lia].
    - destruct (pieceTypeFromChar_spec (String.substring 4 1 s) _ eq_refl)
        as [[? ->]|[[? ->]|[[? ->]|[[? ->]|[Hn _]]]]];
        try (split; [right; split; [done|]; auto 10 | intros [_ ?]; discriminate]).
      exfalso. apply H5. auto. }
  destruct Hp as [Hp Hnp].
  exists s1, s2, p. split; [done|]. split; [done|]. split; [done|].
  unfold UCINotation_Decode. rewrite E1', E2'. fold p.
  replace ((String.length s <? 4) || (5 <? String.length s)) with false
    by (destruct Hl as [-> | ->]; reflexivity).
  replace ((String.length s =? 5) && bool_decide (p = NoPieceType)) with false.
  2:{ symmetry. apply andb_false_iff. destruct Hl as [Hl|Hl].
      - left. rewrite Hl. reflexivity.
      - right. apply bool_decide_eq_false. intros ?. apply Hnp. auto. }
  destruct pos as [pos|]; [|eexists; split; reflexivity].
  destruct (UCI_inferTags_spec pos (mkMove s1 s2 p ∅)) as (tg & -> & Htg).
  exists tg. split; [reflexivity|]. intros t. rewrite Htg. cbn [S1 S2 tags].
  rewrite elem_of_empty. tauto.
Qed.

(** C4. UCI decoding fails exactly on the malformed texts: a length other
    than 4 or 5, an unknown square text in characters 0-1 or 2-3, or, at
    length 5, a fifth character that is not one of q, r, b, n.  On every
    other text it returns a move with the origin and destination the table
    gives and the promotion piece the fifth letter denotes (none at
    length 4; Queen, Rook, Bishop, Knight for q, r, b, n). *)
Theorem UCI_Decode_fails_exactly_when_malformed
    (pos : option Position) (s : string) :
  (UCI_malformed s ∧ ∃ e, UCINotation_Decode pos s = Err e)
  ∨ (¬ UCI_malformed s
     ∧ ∃ m, UCINotation_Decode pos s = Ok m
            ∧ strToSquareMap !! String.substring 0 2 s = Some (S1 m)
            ∧ strToSquareMap !! String.substring 2 2 s = Some (S2 m)
            ∧ String.substring 0 2 s = Square_String (S1 m)
            ∧ String.substring 2 2 s = Square_String (S2 m)
            ∧ UCI_promo s (promo m)).
Proof.
  destruct (decide (UCI_malformed s)) as [Hm|Hm].
  - left. split; [exact Hm|]. by apply UCI_Decode_Err_iff.
  - right. split; [exact Hm|].
    destruct (UCI_Decode_Ok pos s Hm) as (s1 & s2 & p & H1 & H2 & Hp & tg & -> & _).
    eexists. split; [reflexivity|]. cbn [S1 S2 promo].
    repeat split; try assumption; by apply strToSquareMap_lookup.
Qed.

(** C5. For a well-formed UCI text and a position, the decoded move carries
    exactly the inferred tags: KingSideCastle iff a King goes e1-g1 or
    e8-g8, QueenSideCastle iff a King goes e1-c1 or e8-c8, EnPassant iff a
    Pawn lands on the en-passant target, Capture iff that or the destination
    holds a piece whose colour differs from the colour on the origin, and
    never Check.  Without a position the move carries no tag. *)
Theorem UCI_Decode_inferred_tags (s : string) :
  ¬ UCI_malformed s →
  (∀ pos : Position,
     ∃ m, UCINotation_Decode (Some pos) s = Ok m
          ∧ ∀ t, t ∈ tags m ↔ UCI_tag pos (S1 m) (S2 m) t)
  ∧ (∃ m, UCINotation_Decode None s = Ok m ∧ tags m = ∅).
Proof.
  intros Hwf. split.
  - intros pos.
    destruct (UCI_Decode_Ok (Some pos) s Hwf)
      as (s1 & s2 & p & _ & _ & _ & tg & -> & Htg).
    eexists. split; [reflexivity | exact Htg].
  - destruct (UCI_Decode_Ok None s Hwf)
      as (s1 & s2 & p & _ & _ & _ & tg & -> & ->).
    eexists. split; reflexivity.
Qed.

(** C10. UCI encoding never reads its position argument: any two
    positions, nil included, give the same text for a move. *)
Theorem UCI_Encode_ignores_position (p1 p2 : option Position) (m : Move) :
  UCINotation_Encode p1 m = UCINotation_Encode p2 m.
Proof. reflexivity. Qed.

(** The sample text "a1a8" is well formed, so the tags of its decoding are
    the inferred ones. *)
Lemma UCI_Decode_inferred_tags_witness :
  ¬ UCI_malformed "a1a8"
  ∧ ((∀ pos : Position,
        ∃ m, UCINotation_Decode (Some pos) "a1a8" = Ok m
             ∧ ∀ t, t ∈ tags m ↔ UCI_tag pos (S1 m) (S2 m) t)
     ∧ (∃ m, UCINotation_Decode None "a1a8" = Ok m ∧ tags m = ∅)).
Proof.
  assert (H : ¬ UCI_malformed "a1a8").
  { apply (bool_decide_eq_false_1 (UCI_malformed "a1a8")). vm_compute. reflexivity. }
  split; [exact H | exact (UCI_Decode_inferred_tags "a1a8" H)].
Defined.

Lemma Square_String_chars (sq : Square) :
  ∃ f r, Square_String sq = String f (String r EmptyString).
Proof. destruct sq as [[] []]; eexists _, _; reflexivity. Qed.

Lemma UCI_Decode_Encode (pos pos' : option Position) (m : Move) :
  promo m ∈ uciPromos →
  UCINotation_Decode pos (UCINotation_Encode pos' m)
  = Ok (match pos with
        | None => bareMove m
        | Some p => UCINotation_inferTags p (bareMove m)
        end).
Proof.
  intros Hp. unfold UCINotation_Decode, UCINotation_Encode, bareMove.
  destruct m as [s1 s2 p tg]. cbn [S1 S2 promo] in *.
  pose proof (proj2 (strToSquareMap_lookup _ s1) eq_refl) as L1.
  pose proof (proj2 (strToSquareMap_lookup _ s2) eq_refl) as L2.
  destruct (Square_String_chars s1) as (f1 & r1 & E1).
  destruct (Square_String_chars s2) as (f2 & r2 & E2).
  rewrite E1 in *. rewrite E2 in *. clear E1 E2.
  unfold uciPromos in Hp. rewrite !elem_of_cons in Hp.
  destruct Hp as [->|[->|[->|[->|[->|Hp]]]]]; [..|by apply elem_of_nil in Hp].
  all: cbv [PieceType_String String.append String.length String.substring
            Nat.ltb Nat.leb Nat.eqb orb andb]; cbv beta; rewrite L1, L2.
  all: try change (pieceTypeFromChar "q") with Queen.
  all: try change (pieceTypeFromChar "r") with Rook.
  all: try change (pieceTypeFromChar "b") with Bishop.
  all: try change (pieceTypeFromChar "n") with Knight.
  all: try rewrite bool_decide_eq_false_2 by discriminate.
  all: destruct pos; reflexivity.
Qed.

Lemma bareMove_eq (m m' : Move) (tg : gset MoveTag) :
  m' = mkMove (S1 m) (S2 m) (promo m) tg →
  (m' = m ↔ ∀ t, t ∈ tags m ↔ t ∈ tg).
Proof.
  intros ->. destruct m as [s1 s2 p tg0]. cbn [S1 S2 promo tags]. split.
  - intros [= ->]. done.
  - intros H. f_equal. apply set_eq. intros t. by rewrite H.
Qed.

(** ** Disambiguation rule *)

(** C2. For a move [m] of a piece other than a pawn, the loop of [formS1]
    sets [rankReq] exactly when a competitor stands on the origin file of
    [m], [fileReq] exactly when one stands on its origin rank, and [req]
    exactly when there is a competitor; the qualifier holds the origin file
    iff [fileReq] or ([req] and not [rankReq]), and the origin rank iff
    [rankReq].  Without a competitor it is empty; with competitors, all on
    other files, it is the origin file alone. *)
Theorem formS1_disambiguation (pos : Position) (m : Move) :
  Piece_Type (board pos (S1 m)) ≠ Pawn →
  (let st := formS1_flags pos m in
   (rankReq st = true ↔ rankNeeded pos m)
   ∧ (fileReq st = true ↔ fileNeeded pos m)
   ∧ (req st = true ↔ ∃ mv, competitor pos m mv)
   ∧ formS1 pos m
     = qualifier m (fileReq st || negb (rankReq st) && req st) (rankReq st))
  ∧ ((¬ ∃ mv, competitor pos m mv) → formS1 pos m = EmptyString)
  ∧ ((∃ mv, competitor pos m mv) →
     (∀ mv, competitor pos m mv → Square_File (S1 mv) ≠ Square_File (S1 m)) →
     formS1 pos m = File_String (Square_File (S1 m))).
Proof.
  intros Hp. destruct (formS1_flags_spec pos m) as (Hreq & Hrank & Hfile).
  fold (rankNeeded pos m) in Hrank. fold (fileNeeded pos m) in Hfile.
  assert (E : formS1 pos m
              = qualifier m (fileReq (formS1_flags pos m)
                             || negb (rankReq (formS1_flags pos m))
                                && req (formS1_flags pos m))
                            (rankReq (formS1_flags pos m))).
  { unfold formS1, qualifier. rewrite bool_decide_eq_false_2 by done.
    destruct (rankReq _); [reflexivity | by rewrite app_empty_r]. }
  split; [|split].
  - cbv zeta. auto.
  - intros Hno. rewrite E.
    destruct (req _) eqn:Er; [destruct Hno; by apply Hreq|].
    destruct (rankReq _) eqn:Ek.
    { destruct Hno. destruct (proj1 Hrank eq_refl) as (mv & ? & _). eauto. }
    destruct (fileReq _) eqn:Ef.
    { destruct Hno. destruct (proj1 Hfile eq_refl) as (mv & ? & _). eauto. }
    reflexivity.
  - intros Hsome Hfiles. rewrite E.
    destruct (rankReq _) eqn:Ek.
    { destruct (proj1 Hrank eq_refl) as (mv & Hc & Hf). by destruct (Hfiles mv Hc). }
    apply Hreq in Hsome. rewrite Hsome. unfold qualifier.
    rewrite orb_true_r. apply app_empty_r.
Qed.

(** C2 at the move Rad1 of the first sample, whose origin holds a rook: the
    rook on h1 competes from the same rank, so the file is written. *)
Lemma formS1_disambiguation_witness :
  Piece_Type (board rooksPos (S1 Rad1)) ≠ Pawn
  ∧ (rankReq (formS1_flags rooksPos Rad1) = true ↔ rankNeeded rooksPos Rad1)
  ∧ (fileReq (formS1_flags rooksPos Rad1) = true ↔ fileNeeded rooksPos Rad1)
  ∧ formS1 rooksPos Rad1 = "a".
Proof.
  assert (H : Piece_Type (board rooksPos (S1 Rad1)) ≠ Pawn)
    by (vm_compute; discriminate).
  destruct (formS1_disambiguation rooksPos Rad1 H) as ((Hrank & Hfile & _ & E) & _).
  split; [exact H|]. split; [exact Hrank|]. split; [exact Hfile|].
  rewrite E. vm_compute. reflexivity.
Defined.

Example formS1_Rad1 : formS1 rooksPos Rad1 = "a".
Proof. vm_compute. reflexivity. Qed.

(** ** The legal-move decoders *)

Section CodecTheorems.

Variable Update : Position → Move → Position.

#[local] Abbreviation SAN_Encode := (AlgebraicNotation_Encode Update).
#[local] Abbreviation SAN_Decode := (AlgebraicNotation_Decode Update).
#[local] Abbreviation LAN_Encode := (LongAlgebraicNotation_Encode Update).
#[local] Abbreviation LAN_Decode := (LongAlgebraicNotation_Decode Update).

(** C7. The check or mate suffix is empty for a move not tagged Check;
    for a move tagged Check it is "#" when the position after the move has
    status Checkmate and "+" otherwise.  Both encoders end with it: each
    encoding is a text of body characters, none of them '+' or '#',
    followed by this suffix. *)
Theorem getCheckChar_suffix (pos : Position) (m : Move) :
  ((HasTag m Check = false ∧ getCheckChar Update pos m = EmptyString)
   ∨ (HasTag m Check = true ∧ Status (Update pos m) = Checkmate
      ∧ getCheckChar Update pos m = "#")
   ∨ (HasTag m Check = true ∧ Status (Update pos m) ≠ Checkmate
      ∧ getCheckChar Update pos m = "+"))
  ∧ (∃ body, SAN_Encode pos m = body +:+ getCheckChar Update pos m
             ∧ allChars bodyChar body = true)
  ∧ (∃ body, LAN_Encode pos m = body +:+ getCheckChar Update pos m
             ∧ allChars bodyChar body = true).
Proof.
  split; [apply getCheckChar_cases|].
  split; [apply AlgebraicNotation_Encode_body | apply LongAlgebraicNotation_Encode_body].
Qed.

(** C6.  A move tagged KingSideCastle is written "O-O" followed by the
    check or mate suffix by both encoders; a move tagged QueenSideCastle, a
    castle of that side and so not tagged KingSideCastle as well, is
    written "O-O-O" followed by the suffix.  Nothing else is written: no
    piece letter, no origin, no destination. *)
Theorem castle_Encode (pos : Position) (m : Move) :
  (HasTag m KingSideCastle = true →
   SAN_Encode pos m = "O-O" +:+ getCheckChar Update pos m
   ∧ LAN_Encode pos m = "O-O" +:+ getCheckChar Update pos m)
  ∧ (HasTag m KingSideCastle = false → HasTag m QueenSideCastle = true →
     SAN_Encode pos m = "O-O-O" +:+ getCheckChar Update pos m
     ∧ LAN_Encode pos m = "O-O-O" +:+ getCheckChar Update pos m).
Proof.
  unfold AlgebraicNotation_Encode, LongAlgebraicNotation_Encode.
  split; [intros -> | intros -> ->]; done.
Qed.

Lemma decodeLoop_decodes_first (enc : Move → string) (pos : Position) (s e : string) :
  decodes_first enc pos s
    (match decodeLoop enc (strip s) (ValidMoves pos) with
     | Some m => Ok m
     | None => Err e
     end).
Proof.
  unfold decodes_first.
  destruct (decodeLoop enc (strip s) (ValidMoves pos)) as [m|] eqn:E.
  - left. apply decodeLoop_Some in E. exists m. split; [done|].
    split; [exact (proj1 (first_with_elem _ _ _ E)) | done].
  - right. apply decodeLoop_None in E. eauto.
Qed.

(** C3. Each legal-move decoder either returns a move, which is then a
    member of the legal-move list and the first one in its order whose
    stripped encoding equals the stripped input, or fails, and then no
    legal move has a stripped encoding equal to the stripped input. *)
Theorem Decode_first_legal_match (pos : Position) (s : string) :
  decodes_first (SAN_Encode pos) pos s (SAN_Decode pos s)
  ∧ decodes_first (LAN_Encode pos) pos s (LAN_Decode pos s).
Proof.
  unfold AlgebraicNotation_Decode, LongAlgebraicNotation_Decode. cbv zeta.
  fold (strip s). split; apply decodeLoop_decodes_first.
Qed.

Lemma strip_AlgebraicNotation_Encode (pos : Position) (m : Move) :
  allChars bodyChar (strip (SAN_Encode pos m)) = true.
Proof.
  destruct (AlgebraicNotation_Encode_body Update pos m) as (body & -> & Hb).
  by rewrite strip_body_suffix by auto using getCheckChar_marks.
Qed.

Lemma strip_LongAlgebraicNotation_Encode (pos : Position) (m : Move) :
  allChars bodyChar (strip (LAN_Encode pos m)) = true.
Proof.
  destruct (LongAlgebraicNotation_Encode_body Update pos m) as (body & -> & Hb).
  by rewrite strip_body_suffix by auto using getCheckChar_marks.
Qed.

(** The loop finds a move as soon as some legal move matches. *)
Lemma decodeLoop_finds (enc : Move → string) (s : string) (l : list Move) (m : Move) :
  m ∈ l → strip (enc m) = s →
  ∃ m', decodeLoop enc s l = Some m' ∧ first_with (λ x, strip (enc x) = s) l m'.
Proof.
  intros Hin Hm. destruct (decodeLoop enc s l) as [m'|] eqn:E.
  - exists m'. split; [done|]. by apply decodeLoop_Some.
  - apply decodeLoop_None in E. rewrite Forall_forall in E. by destruct (E m Hin).
Qed.

Lemma first_with_unique (P : Move → Prop) (l : list Move) (m m' : Move) :
  first_with P l m' → (∀ x, x ∈ l → P x → x = m) → m' = m.
Proof. intros H Huniq. apply first_with_elem in H as [? ?]. auto. Qed.

(** Decoding a decorated text, for a decoder given by its loop. *)
Lemma decodeLoop_decorated (enc : Move → string) (l : list Move) (m : Move) (s : string) :
  allChars bodyChar (strip (enc m)) = true →
  m ∈ l → decorated (strip (enc m)) s →
  ∃ m', decodeLoop enc (strip s) l = Some m'
        ∧ decodeLoop enc (strip (strip (enc m))) l = Some m'.
Proof.
  intros Hb Hin Hdec.
  rewrite (strip_decorated _ s Hb Hdec).
  rewrite (strip_decorated _ _ Hb (decorated_refl _)).
  destruct (decodeLoop_finds enc _ l m Hin eq_refl) as (m' & E & _). eauto.
Qed.

(** C8. For a legal move [m], decoding any decorated form of its stripped
    encoding succeeds and yields the same move as decoding the stripped
    encoding itself, for both legal-move decoders. *)
Theorem Decode_decoration_tolerant (pos : Position) (m : Move) (s : string) :
  m ∈ ValidMoves pos →
  (decorated (strip (SAN_Encode pos m)) s →
   ∃ m', SAN_Decode pos s = Ok m'
         ∧ SAN_Decode pos (strip (SAN_Encode pos m)) = Ok m')
  ∧ (decorated (strip (LAN_Encode pos m)) s →
     ∃ m', LAN_Decode pos s = Ok m'
           ∧ LAN_Decode pos (strip (LAN_Encode pos m)) = Ok m').
Proof.
  intros Hin. unfold AlgebraicNotation_Decode, LongAlgebraicNotation_Decode.
  cbv zeta. fold (strip s).
  fold (strip (strip (SAN_Encode pos m))). fold (strip (strip (LAN_Encode pos m))).
  split; intros Hdec.
  - destruct (decodeLoop_decorated (SAN_Encode pos) _ m s
                (strip_AlgebraicNotation_Encode pos m) Hin Hdec) as (m' & -> & ->).
    eauto.
  - destruct (decodeLoop_decorated (LAN_Encode pos) _ m s
                (strip_LongAlgebraicNotation_Encode pos m) Hin Hdec) as (m' & -> & ->).
    eauto.
Qed.

End CodecTheorems.

(** ** The sample positions, evaluated *)

Example rooksPos_SAN :
  AlgebraicNotation_Encode sampleUpdate rooksPos <$> [Ra8; checkMove H1 H8; Rad1]
  = ["Ra8#"; "Rh8+"; "Rad1"].
Proof. vm_compute. reflexivity. Qed.

Example rooksPos_LAN :
  LongAlgebraicNotation_Encode sampleUpdate rooksPos <$> [Ra8; checkMove H1 H8; Rad1]
  = ["Ra1a8#"; "Rh1h8+"; "Ra1d1"].
Proof. vm_compute. reflexivity. Qed.

Example rooksPos_UCI :
  UCINotation_Encode (Some rooksPos) <$> [Ra8; checkMove H1 H8; Rad1]
  = ["a1a8"; "h1h8"; "a1d1"].
Proof. vm_compute. reflexivity. Qed.

Example castlePos_UCI_Decode :
  UCINotation_Decode (Some castlePos) "e1g1" = Ok shortCastle
  ∧ UCINotation_Decode (Some castlePos) "e1c1" = Ok longCastle
  ∧ UCINotation_Decode None "e1g1" = Ok (quietMove E1 G1).
Proof. repeat split; apply (bool_decide_unpack _); vm_compute; reflexivity. Qed.

Example UCI_Decode_rejects :
  UCI_malformed "e2e" ∧ UCI_malformed "e2e4qq" ∧ UCI_malformed "i9i1"
  ∧ UCI_malformed "e7e8k".
Proof. repeat split; apply (bool_decide_unpack _); vm_compute; reflexivity. Qed.

(** C1 fails for UCI at the mating move Ra8 of the first sample: it is
    legal and tagged Check, and decoding its UCI text yields the untagged
    move. *)
Lemma UCI_roundtrip_loses_Check :
  Ra8 ∈ ValidMoves rooksPos
  ∧ UCINotation_Decode (Some rooksPos) (UCINotation_Encode (Some rooksPos) Ra8)
    = Ok (quietMove A1 A8)
  ∧ Ok (quietMove A1 A8) ≠ (Ok Ra8 : result Move).
Proof.
  split; [|split].
  - apply (bool_decide_unpack _). vm_compute. reflexivity.
  - apply (bool_decide_unpack _). vm_compute. reflexivity.
  - apply (bool_decide_eq_false_1 _). vm_compute. reflexivity.
Qed.

Example rooksPos_roundtrip :
  UCINotation_Decode (Some rooksPos) (UCINotation_Encode (Some rooksPos) Rad1) = Ok Rad1
  ∧ AlgebraicNotation_Decode sampleUpdate rooksPos
      (AlgebraicNotation_Encode sampleUpdate rooksPos Ra8) = Ok Ra8
  ∧ LongAlgebraicNotation_Decode sampleUpdate rooksPos
      (LongAlgebraicNotation_Encode sampleUpdate rooksPos Ra8) = Ok Ra8.
Proof. repeat split; apply (bool_decide_unpack _); vm_compute; reflexivity. Qed.

(** The encoders test KingSideCastle first: a move tagged with both
    castles, which no decoder builds, is written "O-O". *)
Example both_castle_tags_Encode :
  HasTag bothCastles QueenSideCastle = true
  ∧ AlgebraicNotation_Encode sampleUpdate castlePos bothCastles = "O-O"
  ∧ LongAlgebraicNotation_Encode sampleUpdate castlePos bothCastles = "O-O"
  ∧ "O-O-O" +:+ getCheckChar sampleUpdate castlePos bothCastles = "O-O-O"
  ∧ "O-O" ≠ "O-O-O".
Proof. repeat split; try (vm_compute; reflexivity). discriminate. Qed.

(** C6 at the two castles of the second sample. *)
Lemma castle_Encode_witness :
  HasTag shortCastle KingSideCastle = true
  ∧ HasTag longCastle KingSideCastle = false
  ∧ HasTag longCastle QueenSideCastle = true
  ∧ AlgebraicNotation_Encode sampleUpdate castlePos shortCastle
    = "O-O" +:+ getCheckChar sampleUpdate castlePos shortCastle
  ∧ LongAlgebraicNotation_Encode sampleUpdate castlePos longCastle
    = "O-O-O" +:+ getCheckChar sampleUpdate castlePos longCastle.
Proof.
  assert (H1 : HasTag shortCastle KingSideCastle = true) by (vm_compute; reflexivity).
  assert (H2 : HasTag longCastle KingSideCastle = false) by (vm_compute; reflexivity).
  assert (H3 : HasTag longCastle QueenSideCastle = true) by (vm_compute; reflexivity).
  split; [exact H1|]. split; [exact H2|]. split; [exact H3|].
  split.
  - exact (proj1 (proj1 (castle_Encode sampleUpdate castlePos shortCastle) H1)).
  - exact (proj2 (proj2 (castle_Encode sampleUpdate castlePos longCastle) H2 H3)).
Defined.

(** C8 at the mating move Ra8 of the first sample and two decorated
    texts. *)
Lemma Decode_decoration_tolerant_witness :
  Ra8 ∈ ValidMoves rooksPos
  ∧ decorated (strip (AlgebraicNotation_Encode sampleUpdate rooksPos Ra8)) "R!?a8+e.#p."
  ∧ decorated (strip (LongAlgebraicNotation_Encode sampleUpdate rooksPos Ra8)) "Ra1e.p.a8!!"
  ∧ (∃ m', AlgebraicNotation_Decode sampleUpdate rooksPos "R!?a8+e.#p." = Ok m'
           ∧ AlgebraicNotation_Decode sampleUpdate rooksPos
               (strip (AlgebraicNotation_Encode sampleUpdate rooksPos Ra8)) = Ok m')
  ∧ (∃ m', LongAlgebraicNotation_Decode sampleUpdate rooksPos "Ra1e.p.a8!!" = Ok m'
           ∧ LongAlgebraicNotation_Decode sampleUpdate rooksPos
               (strip (LongAlgebraicNotation_Encode sampleUpdate rooksPos Ra8)) = Ok m').
Proof.
  assert (Hin : Ra8 ∈ ValidMoves rooksPos)
    by (apply (bool_decide_unpack _); vm_compute; reflexivity).
  assert (Hs : decorated (strip (AlgebraicNotation_Encode sampleUpdate rooksPos Ra8))
                 "R!?a8+e.#p.").
  { replace (strip (AlgebraicNotation_Encode sampleUpdate rooksPos Ra8)) with "Ra8"
      by (vm_compute; reflexivity).
    exists "Ra8e.p.". split.
    - do 3 apply ins_ep_keep. apply (ins_ep_here EmptyString EmptyString ins_ep_nil).
    - repeat (first [apply ins_marks_keep | apply ins_marks_here; [reflexivity|]
                    | apply ins_marks_nil]). }
  assert (Hl : decorated (strip (LongAlgebraicNotation_Encode sampleUpdate rooksPos Ra8))
                 "Ra1e.p.a8!!").
  { replace (strip (LongAlgebraicNotation_Encode sampleUpdate rooksPos Ra8)) with "Ra1a8"
      by (vm_compute; reflexivity).
    exists "Ra1e.p.a8". split.
    - do 3 apply ins_ep_keep. apply (ins_ep_here "a8" "a8"). apply ins_ep_refl.
    - repeat (first [apply ins_marks_keep | apply ins_marks_here; [reflexivity|]
                    | apply ins_marks_nil]). }
  destruct (Decode_decoration_tolerant sampleUpdate rooksPos Ra8 "R!?a8+e.#p." Hin)
    as [HS _].
  destruct (Decode_decoration_tolerant sampleUpdate rooksPos Ra8 "Ra1e.p.a8!!" Hin)
    as [_ HL].
  split; [exact Hin|]. split; [exact Hs|]. split; [exact Hl|].
  split; [exact (HS Hs) | exact (HL Hl)].
Defined.

Example rooksPos_decorated_Decode :
  AlgebraicNotation_Decode sampleUpdate rooksPos "R!?a8+e.#p." = Ok Ra8
  ∧ LongAlgebraicNotation_Decode sampleUpdate rooksPos "Ra1e.p.a8!!" = Ok Ra8.
Proof. split; apply (bool_decide_unpack _); vm_compute; reflexivity. Qed.

(** ** Error texts *)

Lemma UCI_Decode_error_text (pos : option Position) (s e : string) :
  UCINotation_Decode pos s = Err e →
  e = "chess: failed to decode long algebraic notation text " +:+ quote +:+ s
        +:+ quote +:+ " for position " +:+ fmtPosition pos.
Proof.
  unfold UCINotation_Decode.
  destruct ((String.length s <? 4) || (5 <? String.length s)); [by intros [= <-]|].
  destruct (strToSquareMap !! String.substring 0 2 s); [|by intros [= <-]].
  destruct (strToSquareMap !! String.substring 2 2 s); [|by intros [= <-]].
  destruct ((String.length s =? 5) && _); [by intros [= <-]|].
  destruct pos; discriminate.
Qed.

Section ErrorTexts.

Variable Update : Position → Move → Position.

Lemma AlgebraicNotation_Decode_error_text (pos : Position) (s e : string) :
  AlgebraicNotation_Decode Update pos s = Err e →
  e = "chess: could not decode algebraic notation " +:+ strip s
        +:+ " for position " +:+ Position_String pos.
Proof.
  unfold AlgebraicNotation_Decode. cbv zeta. fold (strip s).
  destruct (decodeLoop _ _ _); [discriminate | by intros [= <-]].
Qed.

Lemma LongAlgebraicNotation_Decode_error_text (pos : Position) (s e : string) :
  LongAlgebraicNotation_Decode Update pos s = Err e →
  e = "chess: could not decode long algebraic notation " +:+ strip s
        +:+ " for position " +:+ Position_String pos.
Proof.
  unfold LongAlgebraicNotation_Decode. cbv zeta. fold (strip s).
  destruct (decodeLoop _ _ _); [discriminate | by intros [= <-]].
Qed.

End ErrorTexts.

Lemma prefix_app (sub b : string) : String.prefix sub (sub +:+ b) = true.
Proof.
  induction sub as [|c sub IH]; [apply prefix_empty|].
  rewrite app_String. cbn [String.prefix].
  destruct (ascii_dec c c) as [_|Hne]; [exact IH | by destruct Hne].
Qed.

Lemma occurs_containsText (sub s : string) :
  occurs sub s → containsText sub s = true.
Proof.
  intros (a & b & ->). induction a as [|c a IH].
  - rewrite app_empty_l. destruct sub as [|c sub]; [by destruct b|].
    rewrite app_String. cbn [containsText]. rewrite <- app_String.
    by rewrite prefix_app.
  - rewrite app_String. cbn [containsText]. rewrite IH. apply orb_true_r.
Qed.

Lemma occurs_here (a sub b : string) : occurs sub (a +:+ sub +:+ b).
Proof. by exists a, b. Qed.

Lemma occurs_end (a sub : string) : occurs sub (a +:+ sub).
Proof. exists a, EmptyString. by rewrite app_empty_r. Qed.

Lemma occurs_app_r (a sub t : string) : occurs sub t → occurs sub (a +:+ t).
Proof.
  intros (x & y & ->). exists (a +:+ x), y. by rewrite str_app_assoc.
Qed.

Lemma occurs_app_l (sub t b : string) : occurs sub t → occurs sub (t +:+ b).
Proof.
  intros (x & y & ->). exists x, (y +:+ b). by rewrite !str_app_assoc.
Qed.

Section ErrorTheorems.

Variable Update : Position → Move → Position.

(** C9, as amended.  A decoding error carries the input string, as given
    for UCI and stripped of its decorations for the two legal-move
    decoders, and the text of the position ("<nil>" for UCI without a
    position); the Standard Algebraic error names algebraic notation and
    the Long Algebraic error names long algebraic notation. *)
Theorem decoding_error_texts (pos : Position) (s e : string) :
  (∀ p : option Position,
     UCINotation_Decode p s = Err e → occurs s e ∧ occurs (fmtPosition p) e)
  ∧ (AlgebraicNotation_Decode Update pos s = Err e →
     occurs (strip s) e ∧ occurs "algebraic notation" e
     ∧ occurs (Position_String pos) e)
  ∧ (LongAlgebraicNotation_Decode Update pos s = Err e →
     occurs (strip s) e ∧ occurs "long algebraic notation" e
     ∧ occurs (Position_String pos) e).
Proof.
  split; [|split].
  - intros p H. apply UCI_Decode_error_text in H as ->. split.
    + do 2 apply occurs_app_r. apply occurs_app_l with (t := s), occurs_end with (a := EmptyString).
    + do 5 apply occurs_app_r. exists EmptyString, EmptyString. by rewrite app_empty_r.
  - intros H. apply AlgebraicNotation_Decode_error_text in H as ->.
    split; [|split].
    + apply occurs_here.
    + apply occurs_app_l with (t := "chess: could not decode algebraic notation ").
      by exists "chess: could not decode ", " ".
    + do 2 apply occurs_app_r. apply occurs_end.
  - intros H. apply LongAlgebraicNotation_Decode_error_text in H as ->.
    split; [|split].
    + apply occurs_here.
    + apply occurs_app_l with (t := "chess: could not decode long algebraic notation ").
      by exists "chess: could not decode ", " ".
    + do 2 apply occurs_app_r. apply occurs_end.
Qed.

End ErrorTheorems.

(** The amended C9 at the decorated text "Rd1+", which no legal move of the
    first sample matches. *)
Lemma decoding_error_texts_witness :
  AlgebraicNotation_Decode sampleUpdate rooksPos "Rd1+"
  = Err Rd1_error
  ∧ occurs (strip "Rd1+")
      Rd1_error
  ∧ occurs (Position_String rooksPos)
      Rd1_error.
Proof.
  assert (H : AlgebraicNotation_Decode sampleUpdate rooksPos "Rd1+"
              = Err Rd1_error)
    by (vm_compute; reflexivity).
  destruct (decoding_error_texts sampleUpdate rooksPos "Rd1+" Rd1_error) as (_ & HS & _).
  destruct (HS H) as (Hs & _ & Hp).
  split; [exact H|]. split; [exact Hs | exact Hp].
Defined.

(** C9 fails at the same text: the error of the Standard Algebraic decoder
    carries "Rd1", and the input "Rd1+" occurs nowhere in it. *)
Lemma algebraic_error_lacks_raw_input :
  AlgebraicNotation_Decode sampleUpdate rooksPos "Rd1+"
  = Err Rd1_error
  ∧ ¬ occurs "Rd1+"
        Rd1_error.
Proof.
  split; [vm_compute; reflexivity|].
  intros H. apply occurs_containsText in H. vm_compute in H. discriminate.
Qed.

(** The error of UCI decoding names long algebraic notation, and nowhere
    UCI: its format string is the one the Long Algebraic decoder would
    use. *)
Example UCI_error_names_long_algebraic :
  ∃ e, UCINotation_Decode (Some rooksPos) "a1a9" = Err e
       ∧ e = "chess: failed to decode long algebraic notation text " +:+ quote
               +:+ "a1a9" +:+ quote
               +:+ " for position 6k1/8/6K1/8/8/8/8/R6R w - - 0 1"
       ∧ occurs "long algebraic notation" e
       ∧ ¬ occurs "UCI" e.
Proof.
  eexists. split; [vm_compute; reflexivity|]. split; [vm_compute; reflexivity|].
  split.
  - by exists "chess: failed to decode ",
      (" text " +:+ quote +:+ "a1a9" +:+ quote
         +:+ " for position 6k1/8/6K1/8/8/8/8/R6R w - - 0 1").
  - intros H. apply occurs_containsText in H. vm_compute in H. discriminate.
Qed.

(** * Further properties *)

(** ** UCI: texts and tags *)

Lemma length_app (s t : string) :
  String.length (s +:+ t) = String.length s + String.length t.
Proof. induction s as [|c s IH]; [reflexivity|]. rewrite app_String. cbn. by rewrite IH. Qed.

Lemma length_4_split (s : string) :
  String.length s = 4 → s = String.substring 0 2 s +:+ String.substring 2 2 s.
Proof.
  destruct s as [|a [|b [|c [|d [|e s]]]]]; try discriminate. reflexivity.
Qed.

Lemma length_5_split (s : string) :
  String.length s = 5 →
  s = String.substring 0 2 s +:+ String.substring 2 2 s +:+ String.substring 4 1 s.
Proof.
  destruct s as [|a [|b [|c [|d [|e [|f s]]]]]]; try discriminate. reflexivity.
Qed.

Lemma UCI_Decode_Ok_inv (pos : option Position) (s : string) (m : Move) :
  UCINotation_Decode pos s = Ok m →
  ¬ UCI_malformed s
  ∧ String.substring 0 2 s = Square_String (S1 m)
  ∧ String.substring 2 2 s = Square_String (S2 m)
  ∧ UCI_promo s (promo m)
  ∧ match pos with
    | None => tags m = ∅
    | Some pos => ∀ t, t ∈ tags m ↔ UCI_tag pos (S1 m) (S2 m) t
    end.
Proof.
  intros H.
  assert (Hwf : ¬ UCI_malformed s).
  { intros Hm. apply (UCI_Decode_Err_iff pos) in Hm as [e He]. congruence. }
  split; [exact Hwf|].
  destruct (UCI_Decode_Ok pos s Hwf) as (s1 & s2 & p & H1 & H2 & Hp & tg & E & Htg).
  rewrite E in H. injection H as <-. cbn [S1 S2 promo tags].
  apply strToSquareMap_lookup in H1, H2. auto.
Qed.

(** X1. UCI, from text to text: when decoding a text [s] succeeds with a
    move [m], with or without a position, encoding [m] gives [s] back,
    whatever position the encoder is handed. *)
Theorem UCI_Encode_Decode_text (pos pos' : option Position) (s : string) (m : Move) :
  UCINotation_Decode pos s = Ok m → UCINotation_Encode pos' m = s.
Proof.
  intros H. apply UCI_Decode_Ok_inv in H as (_ & H1 & H2 & Hp & _).
  unfold UCINotation_Encode. rewrite <- H1, <- H2.
  destruct Hp as [[Hl ->]|[Hl Hp]].
  - cbn [PieceType_String]. rewrite app_empty_r. symmetry. by apply length_4_split.
  - rewrite (length_5_split s Hl) at 3. do 2 f_equal.
    destruct Hp as [[-> ->]|[[-> ->]|[[-> ->]|[-> ->]]]]; reflexivity.
Qed.

Lemma UCI_Encode_Decode_text_witness :
  UCINotation_Decode (Some castlePos) "e1g1" = Ok shortCastle
  ∧ UCINotation_Encode None shortCastle = "e1g1".
Proof.
  assert (H : UCINotation_Decode (Some castlePos) "e1g1" = Ok shortCastle)
    by (apply (bool_decide_unpack _); vm_compute; reflexivity).
  split; [exact H | exact (UCI_Encode_Decode_text _ None _ _ H)].
Defined.

(** X2. UCI encoding is injective in what it writes: two moves whose
    promotions are none, Queen, Rook, Bishop or Knight and whose texts are
    equal have the same origin, destination and promotion. *)
Theorem UCI_Encode_inj (p1 p2 : option Position) (m1 m2 : Move) :
  promo m1 ∈ uciPromos → promo m2 ∈ uciPromos →
  UCINotation_Encode p1 m1 = UCINotation_Encode p2 m2 →
  S1 m1 = S1 m2 ∧ S2 m1 = S2 m2 ∧ promo m1 = promo m2.
Proof.
  intros H1 H2 E.
  pose proof (UCI_Decode_Encode None p1 m1 H1) as D1.
  pose proof (UCI_Decode_Encode None p2 m2 H2) as D2.
  rewrite E, D2 in D1. injection D1 as -> -> ->. done.
Qed.

(** X3. The tags of a move decoded from UCI text: never both castles,
    EnPassant only together with Capture and never with a castle, and never
    Check. *)
Theorem UCI_Decode_tags_consistent (pos : option Position) (s : string) (m : Move) :
  UCINotation_Decode pos s = Ok m →
  ¬ (KingSideCastle ∈ tags m ∧ QueenSideCastle ∈ tags m)
  ∧ (EnPassant ∈ tags m → Capture ∈ tags m)
  ∧ (EnPassant ∈ tags m → (KingSideCastle ∉ tags m) ∧ (QueenSideCastle ∉ tags m))
  ∧ Check ∉ tags m.
Proof.
  intros H. apply UCI_Decode_Ok_inv in H as (_ & _ & _ & _ & Ht).
  destruct pos as [pos|].
  - rewrite !Ht. unfold UCI_tag, E1, G1, C1, E8, G8, C8.
    repeat split; intuition congruence.
  - rewrite Ht. rewrite !elem_of_empty. tauto.
Qed.

Lemma UCI_Decode_tags_consistent_witness :
  UCINotation_Decode (Some castlePos) "e1c1" = Ok longCastle
  ∧ ¬ (KingSideCastle ∈ tags longCastle ∧ QueenSideCastle ∈ tags longCastle)
  ∧ Check ∉ tags longCastle.
Proof.
  assert (H : UCINotation_Decode (Some castlePos) "e1c1" = Ok longCastle)
    by (apply (bool_decide_unpack _); vm_compute; reflexivity).
  destruct (UCI_Decode_tags_consistent _ _ _ H) as (H1 & _ & _ & H4).
  split; [exact H|]. split; [exact H1 | exact H4].
Defined.

(** ** Lengths *)

(** Lengths of the pieces of an encoding. *)
Lemma File_String_length (f : File) : String.length (File_String f) = 1.
Proof. by destruct f. Qed.
Lemma Rank_String_length (r : Rank) : String.length (Rank_String r) = 1.
Proof. by destruct r. Qed.
Lemma Square_String_length (sq : Square) : String.length (Square_String sq) = 2.
Proof.
  unfold Square_String. by rewrite length_app, File_String_length, Rank_String_length.
Qed.
Lemma charForPromo_length (p : PieceType) : String.length (charForPromo p) ≤ 2.
Proof. destruct p; vm_compute; lia. Qed.
Lemma formS1_length (pos : Position) (m : Move) :
  String.length (formS1 pos m) ≤ 2
  ∧ (Piece_Type (board pos (S1 m)) = Pawn → formS1 pos m = EmptyString).
Proof.
  unfold formS1. case_bool_decide as Hp; [split; [cbn; lia | done]|].
  split; [|done].
  destruct (rankReq _), (fileReq _ || _);
    rewrite ?length_app, ?File_String_length, ?Rank_String_length; cbn; lia.
Qed.

Section Lengths.
Variable Update : Position → Move → Position.

Lemma getCheckChar_length (pos : Position) (m : Move) :
  String.length (getCheckChar Update pos m) = if HasTag m Check then 1 else 0.
Proof.
  destruct (getCheckChar_cases Update pos m) as [[-> ->]|[(-> & _ & ->)|(-> & _ & ->)]];
    reflexivity.
Qed.

Lemma AlgebraicNotation_Encode_length_body (pos : Position) (m : Move) :
  ∃ n, String.length (AlgebraicNotation_Encode Update pos m)
       = n + String.length (getCheckChar Update pos m)
       ∧ 2 ≤ n ≤ 8.
Proof.
  unfold AlgebraicNotation_Encode. cbv zeta.
  destruct (HasTag m KingSideCastle); [exists 3; rewrite length_app; cbn; lia|].
  destruct (HasTag m QueenSideCastle); [exists 5; rewrite length_app; cbn; lia|].
  destruct (formS1_length pos m) as [Hl Hpawn].
  eexists. rewrite !length_app, Square_String_length, !Nat.add_assoc.
  split; [reflexivity|].
  pose proof (charForPromo_length (promo m)) as Hq.
  destruct (Piece_Type (board pos (S1 m))) eqn:Ept;
    try rewrite (Hpawn eq_refl);
    destruct (HasTag m Capture || HasTag m EnPassant);
    rewrite ?(bool_decide_eq_false_2 (_ = Pawn)) by discriminate;
    rewrite ?(bool_decide_eq_true_2 (_ = _)) by reflexivity;
    cbn [andb charFromPieceType];
    rewrite ?length_app, ?File_String_length; cbn [String.length]; lia.
Qed.

Lemma LongAlgebraicNotation_Encode_length_body (pos : Position) (m : Move) :
  ∃ n, String.length (LongAlgebraicNotation_Encode Update pos m)
       = n + String.length (getCheckChar Update pos m)
       ∧ 3 ≤ n ≤ 8.
Proof.
  unfold LongAlgebraicNotation_Encode. cbv zeta.
  destruct (HasTag m KingSideCastle); [exists 3; rewrite length_app; cbn; lia|].
  destruct (HasTag m QueenSideCastle); [exists 5; rewrite length_app; cbn; lia|].
  eexists. rewrite !length_app, !Square_String_length, !Nat.add_assoc.
  split; [reflexivity|].
  assert (Hne : Square_String (S1 m) ≠ EmptyString).
  { intros E. pose proof (Square_String_length (S1 m)) as L. rewrite E in L. discriminate. }
  rewrite (bool_decide_eq_false_2 _ Hne), andb_false_r.
  pose proof (charForPromo_length (promo m)) as Hq.
  destruct (Piece_Type (board pos (S1 m))),
    (HasTag m Capture || HasTag m EnPassant);
    cbn [charFromPieceType String.length]; lia.
Qed.

End Lengths.

(** ** Stripping only removes *)

(** [replaceFrom] and [dropMarks] only remove characters. *)
Lemma replaceFrom_allChars (P : ascii → bool) (sub : string) (k : nat) (s : string) :
  allChars P s = true → allChars P (replaceFrom sub k s) = true.
Proof.
  revert k. induction s as [|c s IH]; intros k; [done|].
  cbn [allChars replaceFrom]. rewrite andb_true_iff. intros [Hc Hs].
  destruct k as [|k]; [|by apply IH].
  destruct (String.prefix sub (String c s)); [by apply IH|].
  cbn [allChars]. rewrite Hc. by apply IH.
Qed.

Lemma replaceFrom_length (sub : string) (k : nat) (s : string) :
  String.length (replaceFrom sub k s) ≤ String.length s.
Proof.
  revert k. induction s as [|c s IH]; intros k; [done|].
  cbn [replaceFrom]. destruct k; [|specialize (IH k); cbn; lia].
  destruct (String.prefix sub (String c s)).
  - specialize (IH (Nat.pred (String.length sub))). cbn. lia.
  - specialize (IH 0). cbn. lia.
Qed.

Lemma dropMarks_noMark (s : string) : allChars noMark (dropMarks s) = true.
Proof.
  induction s as [|c s IH]; [done|]. cbn [dropMarks].
  destruct (markChar c) eqn:E; [done|]. cbn [allChars]. unfold noMark at 1.
  by rewrite E.
Qed.

Lemma dropMarks_length (s : string) : String.length (dropMarks s) ≤ String.length s.
Proof.
  induction s as [|c s IH]; [done|]. cbn [dropMarks].
  destruct (markChar c); cbn; lia.
Qed.

(** X4. [removeSubstrings] with the decorations only removes: the result
    holds no '!', '?', '+' or '#', and is never longer than the input. *)
Theorem strip_only_removes (s : string) :
  allChars noMark (strip s) = true ∧ String.length (strip s) ≤ String.length s.
Proof.
  rewrite strip_dropMarks. split.
  - apply replaceFrom_allChars, dropMarks_noMark.
  - etrans; [apply replaceFrom_length | apply dropMarks_length].
Qed.

Lemma dropMarks_noMark_id (s : string) : allChars noMark s = true → dropMarks s = s.
Proof.
  induction s as [|c s IH]; [done|]. cbn [allChars dropMarks].
  rewrite andb_true_iff. unfold noMark at 1. rewrite negb_true_iff.
  intros [-> Hs]. by rewrite IH.
Qed.

Lemma replaceFrom_ep_app (a t : string) :
  allChars notDot a = true →
  (∀ b rest, t = String b rest → b ≠ "."%char) →
  replaceFrom "e.p." 0 (a +:+ t) = a +:+ replaceFrom "e.p." 0 t.
Proof.
  intros Ha Ht. induction a as [|c a IH]; [done|].
  cbn [allChars] in Ha. apply andb_true_iff in Ha as [_ Ha].
  rewrite !app_String. cbn [replaceFrom]. rewrite prefix_ep_false.
  - by rewrite IH.
  - intros b rest E. destruct a as [|c' a'].
    + rewrite app_empty_l in E. eauto.
    + rewrite app_String in E. injection E as <- _.
      cbn [allChars] in Ha. apply andb_true_iff in Ha as [Hc _]. by apply notDot_ne.
Qed.

(** One pass of stripping leaves the outer "e.p." of a nested pair. *)
Lemma strip_nested_ep (a b : string) :
  allChars bodyChar a = true → allChars bodyChar b = true →
  strip (a +:+ "e.e.p.p." +:+ b) = a +:+ "e.p." +:+ b.
Proof.
  intros Ha Hb. rewrite strip_dropMarks.
  assert (Hna : allChars notDot a = true) by (eapply allChars_impl; [apply bodyChar_notDot|done]).
  assert (Hnb : allChars notDot b = true) by (eapply allChars_impl; [apply bodyChar_notDot|done]).
  rewrite dropMarks_noMark_id.
  2:{ rewrite !allChars_app. rewrite (allChars_impl _ _ a bodyChar_noMark Ha).
      rewrite (allChars_impl _ _ b bodyChar_noMark Hb). reflexivity. }
  rewrite replaceFrom_ep_app; [|done|].
  2:{ intros c rest E. rewrite !app_String in E. injection E as <- _. discriminate. }
  f_equal. rewrite !app_String, app_empty_l.
  cbn [replaceFrom String.prefix]. cbn.
  by rewrite (replaceFrom_ep_nodot b Hnb).
Qed.

(** ** What the legal-move decoders accept *)

Section DecoderFacts.
Variable Update : Position → Move → Position.

#[local] Abbreviation SAN_Encode := (AlgebraicNotation_Encode Update).
#[local] Abbreviation SAN_Decode := (AlgebraicNotation_Decode Update).
#[local] Abbreviation LAN_Encode := (LongAlgebraicNotation_Encode Update).
#[local] Abbreviation LAN_Decode := (LongAlgebraicNotation_Decode Update).

Lemma AlgebraicNotation_Decode_Ok (pos : Position) (s : string) (m : Move) :
  SAN_Decode pos s = Ok m ↔
  first_with (λ x, strip (SAN_Encode pos x) = strip s) (ValidMoves pos) m.
Proof.
  unfold AlgebraicNotation_Decode. cbv zeta. fold (strip s).
  rewrite <- decodeLoop_Some.
  destruct (decodeLoop _ _ _); split; congruence.
Qed.

Lemma LongAlgebraicNotation_Decode_Ok (pos : Position) (s : string) (m : Move) :
  LAN_Decode pos s = Ok m ↔
  first_with (λ x, strip (LAN_Encode pos x) = strip s) (ValidMoves pos) m.
Proof.
  unfold LongAlgebraicNotation_Decode. cbv zeta. fold (strip s).
  rewrite <- decodeLoop_Some.
  destruct (decodeLoop _ _ _); split; congruence.
Qed.

Lemma first_with_eq (P Q : Move → Prop) (l : list Move) (m : Move) :
  (∀ x, P x ↔ Q x) → first_with P l m → first_with Q l m.
Proof.
  intros HPQ (l1 & l2 & -> & Hm & Hl1). exists l1, l2. split; [done|].
  split; [by apply HPQ|]. eapply Forall_impl; [exact Hl1|].
  intros x Hx HQ. by apply Hx, HPQ.
Qed.

(** X5. A move that a legal-move decoder returns for some text is returned
    again for its own encoding: decoding, encoding and decoding again gives
    the same move. *)
Theorem Decode_Encode_Decode (pos : Position) (s : string) (m : Move) :
  (SAN_Decode pos s = Ok m → SAN_Decode pos (SAN_Encode pos m) = Ok m)
  ∧ (LAN_Decode pos s = Ok m → LAN_Decode pos (LAN_Encode pos m) = Ok m).
Proof.
  split; intros H.
  - apply AlgebraicNotation_Decode_Ok in H. apply AlgebraicNotation_Decode_Ok.
    pose proof (proj2 (first_with_elem _ _ _ H)) as E. cbv beta in E.
    eapply first_with_eq; [|exact H]. intros x. cbv beta. by rewrite E.
  - apply LongAlgebraicNotation_Decode_Ok in H. apply LongAlgebraicNotation_Decode_Ok.
    pose proof (proj2 (first_with_elem _ _ _ H)) as E. cbv beta in E.
    eapply first_with_eq; [|exact H]. intros x. cbv beta. by rewrite E.
Qed.

Lemma strip_AlgebraicNotation_Encode_length (pos : Position) (m : Move) :
  2 ≤ String.length (strip (SAN_Encode pos m)) ≤ 8.
Proof.
  destruct (AlgebraicNotation_Encode_length_body Update pos m) as (n & Hn & Hb).
  destruct (AlgebraicNotation_Encode_body Update pos m) as (body & E & Hbody).
  rewrite E in Hn |- *. rewrite length_app in Hn.
  rewrite strip_body_suffix by auto using getCheckChar_marks. lia.
Qed.

Lemma strip_LongAlgebraicNotation_Encode_length (pos : Position) (m : Move) :
  3 ≤ String.length (strip (LAN_Encode pos m)) ≤ 8.
Proof.
  destruct (LongAlgebraicNotation_Encode_length_body Update pos m) as (n & Hn & Hb).
  destruct (LongAlgebraicNotation_Encode_body Update pos m) as (body & E & Hbody).
  rewrite E in Hn |- *. rewrite length_app in Hn.
  rewrite strip_body_suffix by auto using getCheckChar_marks. lia.
Qed.

Lemma AlgebraicNotation_Decode_Ok_body (pos : Position) (s : string) (m : Move) :
  SAN_Decode pos s = Ok m →
  allChars bodyChar (strip s) = true ∧ 2 ≤ String.length (strip s) ≤ 8.
Proof.
  intros H. apply AlgebraicNotation_Decode_Ok, first_with_elem in H as [_ <-].
  split; [apply strip_AlgebraicNotation_Encode | apply strip_AlgebraicNotation_Encode_length].
Qed.

Lemma LongAlgebraicNotation_Decode_Ok_body (pos : Position) (s : string) (m : Move) :
  LAN_Decode pos s = Ok m →
  allChars bodyChar (strip s) = true ∧ 3 ≤ String.length (strip s) ≤ 8.
Proof.
  intros H. apply LongAlgebraicNotation_Decode_Ok, first_with_elem in H as [_ <-].
  split; [apply strip_LongAlgebraicNotation_Encode
         | apply strip_LongAlgebraicNotation_Encode_length].
Qed.

(** X6. A legal-move decoder accepts a text only if its stripped form is
    made of the characters the encoders write before the check or mate mark
    and has 2 to 8 characters (Standard Algebraic) or 3 to 8 (Long
    Algebraic). *)
Theorem Decode_accepts_only_bodies (pos : Position) (s : string) (m : Move) :
  (SAN_Decode pos s = Ok m →
   allChars bodyChar (strip s) = true ∧ 2 ≤ String.length (strip s) ≤ 8)
  ∧ (LAN_Decode pos s = Ok m →
     allChars bodyChar (strip s) = true ∧ 3 ≤ String.length (strip s) ≤ 8).
Proof.
  split; [apply AlgebraicNotation_Decode_Ok_body
         | apply LongAlgebraicNotation_Decode_Ok_body].
Qed.

Lemma Decode_Err_cases (pos : Position) (s : string) :
  (¬ ∃ m, SAN_Decode pos s = Ok m) → ∃ e, SAN_Decode pos s = Err e.
Proof. intros H. destruct (SAN_Decode pos s) as [m|e]; [destruct H|]; eauto. Qed.

Lemma LAN_Decode_Err_cases (pos : Position) (s : string) :
  (¬ ∃ m, LAN_Decode pos s = Ok m) → ∃ e, LAN_Decode pos s = Err e.
Proof. intros H. destruct (LAN_Decode pos s) as [m|e]; [destruct H|]; eauto. Qed.

(** X7. Texts that the legal-move decoders reject in every position: a
    text of '!', '?', '+' and '#' only, the empty text among them, and a
    text with an "e.p." nested in another, which one pass of the
    replacement leaves with an "e.p." inside. *)
Theorem Decode_rejects (pos : Position) :
  (∀ s, allChars markChar s = true →
        (∃ e, SAN_Decode pos s = Err e) ∧ (∃ e, LAN_Decode pos s = Err e))
  ∧ (∀ a b, allChars bodyChar a = true → allChars bodyChar b = true →
            (∃ e, SAN_Decode pos (a +:+ "e.e.p.p." +:+ b) = Err e)
            ∧ (∃ e, LAN_Decode pos (a +:+ "e.e.p.p." +:+ b) = Err e)).
Proof.
  split.
  - intros s Hs.
    assert (E : strip s = EmptyString).
    { rewrite <- (app_empty_l s). by apply strip_body_suffix. }
    split; [apply Decode_Err_cases | apply LAN_Decode_Err_cases]; intros [m H].
    + apply AlgebraicNotation_Decode_Ok_body in H as [_ Hl]. rewrite E in Hl. cbn in Hl. lia.
    + apply LongAlgebraicNotation_Decode_Ok_body in H as [_ Hl]. rewrite E in Hl. cbn in Hl. lia.
  - intros a b Ha Hb.
    assert (Hdot : allChars bodyChar (strip (a +:+ "e.e.p.p." +:+ b)) = false).
    { rewrite strip_nested_ep by done. rewrite !allChars_app, Ha.
      cbn. reflexivity. }
    split; [apply Decode_Err_cases | apply LAN_Decode_Err_cases]; intros [m H].
    + apply AlgebraicNotation_Decode_Ok_body in H as [Hc _]. congruence.
    + apply LongAlgebraicNotation_Decode_Ok_body in H as [Hc _]. congruence.
Qed.

(** X8. A move decoded from UCI text carries no Check tag, so its Standard
    and Long Algebraic encodings end without a check or mate mark, in any
    position. *)
Theorem UCI_Decode_then_Encode_unmarked
    (upos : option Position) (s : string) (m : Move) (pos : Position) :
  UCINotation_Decode upos s = Ok m →
  getCheckChar Update pos m = EmptyString
  ∧ allChars bodyChar (SAN_Encode pos m) = true
  ∧ allChars bodyChar (LAN_Encode pos m) = true.
Proof.
  intros H. apply UCI_Decode_Ok_inv in H as (_ & _ & _ & _ & Ht).
  assert (Hc : HasTag m Check = false).
  { unfold HasTag. apply bool_decide_eq_false. destruct upos as [p|].
    - rewrite Ht. cbn. tauto.
    - rewrite Ht. apply not_elem_of_empty. }
  assert (E : getCheckChar Update pos m = EmptyString).
  { unfold getCheckChar. by rewrite Hc. }
  split; [exact E|]. split.
  - destruct (AlgebraicNotation_Encode_body Update pos m) as (body & -> & Hb).
    by rewrite E, app_empty_r.
  - destruct (LongAlgebraicNotation_Encode_body Update pos m) as (body & -> & Hb).
    by rewrite E, app_empty_r.
Qed.

(** X9. A Standard Algebraic encoding has 2 to 9 characters and a Long
    Algebraic one 3 to 9, for every position and move. *)
Theorem Encode_length_bounds (pos : Position) (m : Move) :
  2 ≤ String.length (SAN_Encode pos m) ≤ 9
  ∧ 3 ≤ String.length (LAN_Encode pos m) ≤ 9.
Proof.
  destruct (AlgebraicNotation_Encode_length_body Update pos m) as (n & -> & Hn).
  destruct (LongAlgebraicNotation_Encode_length_body Update pos m) as (n' & -> & Hn').
  rewrite getCheckChar_length. destruct (HasTag m Check); lia.
Qed.

End DecoderFacts.

(** ** The characters of the encodings *)

Lemma File_String_char (f : File) : File_String f = String (File_char f) EmptyString.
Proof. by destruct f. Qed.
Lemma Rank_String_char (r : Rank) : Rank_String r = String (Rank_char r) EmptyString.
Proof. by destruct r. Qed.
Lemma Square_String_char (sq : Square) :
  Square_String sq
  = String (File_char (Square_File sq)) (String (Rank_char (Square_Rank sq)) EmptyString).
Proof. unfold Square_String. by rewrite File_String_char, Rank_String_char. Qed.

Lemma File_char_inj (f g : File) : File_char f = File_char g → f = g.
Proof. destruct f, g; cbn; congruence. Qed.
Lemma Rank_char_inj (r q : Rank) : Rank_char r = Rank_char q → r = q.
Proof. destruct r, q; cbn; congruence. Qed.
Lemma File_Rank_char (f : File) (r : Rank) : File_char f ≠ Rank_char r.
Proof. destruct f, r; cbn; congruence. Qed.
Lemma Square_inj (sq sq' : Square) :
  Square_File sq = Square_File sq' → Square_Rank sq = Square_Rank sq' → sq = sq'.
Proof. destruct sq, sq'; cbn; congruence. Qed.

(** The qualifier of [formS1], by the flags of its loop. *)
Lemma formS1_qualifier (pos : Position) (m : Move) :
  Piece_Type (board pos (S1 m)) ≠ Pawn →
  formS1 pos m
  = qualifier m (fileReq (formS1_flags pos m)
                 || negb (rankReq (formS1_flags pos m)) && req (formS1_flags pos m))
                (rankReq (formS1_flags pos m)).
Proof.
  intros Hp. unfold formS1, qualifier. rewrite bool_decide_eq_false_2 by done.
  destruct (rankReq _); [reflexivity | by rewrite app_empty_r].
Qed.

Lemma competitor_sym (pos : Position) (m1 m2 : Move) :
  m1 ∈ ValidMoves pos → competitor pos m1 m2 → competitor pos m2 m1.
Proof. unfold competitor. intros ? (? & ? & ? & ? & ?). repeat split; congruence. Qed.

(** The shape of the qualifiers of two competitors. *)
Lemma competitor_flags (pos : Position) (m1 m2 : Move) :
  competitor pos m1 m2 →
  req (formS1_flags pos m1) = true
  ∧ (rankReq (formS1_flags pos m1) = false →
     Square_File (S1 m2) ≠ Square_File (S1 m1))
  ∧ (fileReq (formS1_flags pos m1) = false →
     Square_Rank (S1 m2) ≠ Square_Rank (S1 m1)).
Proof.
  intros Hc. destruct (formS1_flags_spec pos m1) as (Hreq & Hrank & Hfile).
  split; [apply Hreq; eauto|]. split.
  - intros Hf E. rewrite (proj2 Hrank) in Hf; [done | eauto].
  - intros Hf E. rewrite (proj2 Hfile) in Hf; [done | eauto].
Qed.

Lemma qualifier_chars (m : Move) (wf wr : bool) (t : string) :
  qualifier m wf wr +:+ t
  = (if wf then String (File_char (Square_File (S1 m))) else id)
      ((if wr then String (Rank_char (Square_Rank (S1 m))) else id) t).
Proof.
  unfold qualifier. rewrite File_String_char, Rank_String_char.
  destruct wf, wr; reflexivity.
Qed.

(** Two competitors never get the same qualifier; whatever follows, the
    texts differ within their first two characters. *)
Lemma competitor_qualifiers_differ (pos : Position) (m1 m2 : Move) (t1 t2 : string) :
  Piece_Type (board pos (S1 m1)) ≠ Pawn →
  m1 ∈ ValidMoves pos → competitor pos m1 m2 →
  formS1 pos m1 +:+ t1 ≠ formS1 pos m2 +:+ t2.
Proof.
  intros Hp Hin Hc.
  pose proof (competitor_sym pos m1 m2 Hin Hc) as Hc'.
  assert (Hp2 : Piece_Type (board pos (S1 m2)) ≠ Pawn).
  { destruct Hc as (_ & _ & _ & E & _). by rewrite E. }
  destruct (competitor_flags pos m1 m2 Hc) as (Hr1 & Hf1 & Hk1).
  destruct (competitor_flags pos m2 m1 Hc') as (Hr2 & Hf2 & Hk2).
  assert (Hne : S1 m2 ≠ S1 m1) by (by destruct Hc as (_ & ? & _)).
  rewrite (formS1_qualifier pos m1 Hp), (formS1_qualifier pos m2 Hp2), Hr1, Hr2.
  rewrite !qualifier_chars.
  destruct (rankReq (formS1_flags pos m1)), (fileReq (formS1_flags pos m1)),
    (rankReq (formS1_flags pos m2)), (fileReq (formS1_flags pos m2));
    cbn [orb andb negb id]; intros E; injection E as E1 E2.
  all: try (by destruct (File_Rank_char _ _ E1)).
  all: try (by destruct (File_Rank_char _ _ (eq_sym E1))).
  all: try (apply File_char_inj in E1; by destruct (Hf1 eq_refl)).
  all: try (apply File_char_inj in E1; by destruct (Hf2 eq_refl)).
  all: try (apply Rank_char_inj in E1; by destruct (Hk1 eq_refl)).
  all: try (apply Rank_char_inj in E1; by destruct (Hk2 eq_refl)).
  all: apply File_char_inj in E1; apply Rank_char_inj in E2;
    destruct Hne; by apply Square_inj.
Qed.


Lemma castles_false (m : Move) :
  castles m = false → HasTag m KingSideCastle = false ∧ HasTag m QueenSideCastle = false.
Proof. unfold castles. apply orb_false_iff. Qed.




Lemma AlgebraicNotation_body_chars (pos : Position) (m : Move) :
  allChars bodyChar (AlgebraicNotation_body pos m) = true.
Proof.
  unfold AlgebraicNotation_body. cbv zeta.
  destruct (HasTag m KingSideCastle); [done|].
  destruct (HasTag m QueenSideCastle); [done|].
  destruct (captures m); [|body_chars].
  destruct (bool_decide _ && bool_decide _); body_chars.
Qed.

Lemma LongAlgebraicNotation_body_chars (pos : Position) (m : Move) :
  allChars bodyChar (LongAlgebraicNotation_body pos m) = true.
Proof.
  unfold LongAlgebraicNotation_body.
  destruct (HasTag m KingSideCastle); [done|].
  destruct (HasTag m QueenSideCastle); [done|].
  destruct (captures m); body_chars.
Qed.

Lemma Square_String_nonempty (sq : Square) : Square_String sq ≠ EmptyString.
Proof. rewrite Square_String_char. discriminate. Qed.

Section Split.
Variable Update : Position → Move → Position.

#[local] Abbreviation SAN_Encode := (AlgebraicNotation_Encode Update).
#[local] Abbreviation LAN_Encode := (LongAlgebraicNotation_Encode Update).

Lemma AlgebraicNotation_Encode_split (pos : Position) (m : Move) :
  SAN_Encode pos m = AlgebraicNotation_body pos m +:+ getCheckChar Update pos m.
Proof.
  unfold AlgebraicNotation_Encode, AlgebraicNotation_body, captures. cbv zeta.
  destruct (HasTag m KingSideCastle); [done|].
  destruct (HasTag m QueenSideCastle); [done|].
  by rewrite !str_app_assoc.
Qed.

Lemma LongAlgebraicNotation_Encode_split (pos : Position) (m : Move) :
  LAN_Encode pos m = LongAlgebraicNotation_body pos m +:+ getCheckChar Update pos m.
Proof.
  unfold LongAlgebraicNotation_Encode, LongAlgebraicNotation_body, captures. cbv zeta.
  destruct (HasTag m KingSideCastle); [done|].
  destruct (HasTag m QueenSideCastle); [done|].
  rewrite (bool_decide_eq_false_2 _ (Square_String_nonempty (S1 m))), andb_false_r.
  by rewrite !str_app_assoc.
Qed.

Lemma strip_AlgebraicNotation_Encode_body (pos : Position) (m : Move) :
  strip (SAN_Encode pos m) = AlgebraicNotation_body pos m.
Proof.
  rewrite AlgebraicNotation_Encode_split.
  apply strip_body_suffix; [apply AlgebraicNotation_body_chars | apply getCheckChar_marks].
Qed.

Lemma strip_LongAlgebraicNotation_Encode_body (pos : Position) (m : Move) :
  strip (LAN_Encode pos m) = LongAlgebraicNotation_body pos m.
Proof.
  rewrite LongAlgebraicNotation_Encode_split.
  apply strip_body_suffix; [apply LongAlgebraicNotation_body_chars | apply getCheckChar_marks].
Qed.

End Split.

(** Reading characters: no file letter is a rank digit, an 'x', an 'O', an
    '=' or a piece letter. *)
Ltac char_clash :=
  match goal with
  | H : File_char _ = Rank_char _ |- _ => destruct (File_Rank_char _ _ H)
  | H : Rank_char _ = File_char _ |- _ => destruct (File_Rank_char _ _ (eq_sym H))
  | H : File_char ?f = Ascii _ _ _ _ _ _ _ _ |- _ => destruct f; discriminate H
  | H : Ascii _ _ _ _ _ _ _ _ = File_char ?f |- _ => destruct f; discriminate H
  | H : Rank_char ?r = Ascii _ _ _ _ _ _ _ _ |- _ => destruct r; discriminate H
  | H : Ascii _ _ _ _ _ _ _ _ = Rank_char ?r |- _ => destruct r; discriminate H
  end.

Ltac peel :=
  repeat match goal with
         | H : String _ _ = String _ _ |- _ =>
             let Hc := fresh "Hc" in let Hs := fresh "Hs" in
             injection H as Hc Hs
         end.

Lemma LongAlgebraicNotation_body_inj
    (pt pt' : PieceType) (s1 s1' s2 s2' : Square) (c c' : bool) (q q' : string) :
  charFromPieceType pt +:+ Square_String s1 +:+ (if c then "x" else EmptyString)
    +:+ Square_String s2 +:+ q
  = charFromPieceType pt' +:+ Square_String s1' +:+ (if c' then "x" else EmptyString)
      +:+ Square_String s2' +:+ q' →
  charFromPieceType pt = charFromPieceType pt'
  ∧ s1 = s1' ∧ c = c' ∧ s2 = s2' ∧ q = q'.
Proof.
  rewrite !Square_String_char.
  destruct pt, pt', c, c'; cbn [charFromPieceType];
    rewrite ?app_String, ?app_empty_l; rewrite ?app_String, ?app_empty_l;
    intros H; peel; try discriminate; try char_clash.
  all: repeat match goal with
              | H : File_char _ = File_char _ |- _ => apply File_char_inj in H
              | H : Rank_char _ = Rank_char _ |- _ => apply Rank_char_inj in H
              end.
  all: repeat split; try done; by apply Square_inj.
Qed.


Lemma charForPromo_shape (p : PieceType) : promoShape (charForPromo p).
Proof. destruct p; [left|right|right|right|right|right|left]; by eauto. Qed.

Ltac inj_chars :=
  repeat match goal with
         | H : File_char _ = File_char _ |- _ => apply File_char_inj in H
         | H : Rank_char _ = Rank_char _ |- _ => apply Rank_char_inj in H
         end.

(** What follows the piece letter in a Standard Algebraic body determines
    its parts. *)
Lemma AlgebraicNotation_tail_inj
    (m m' : Move) (wf wr wf' wr' c c' : bool) (s2 s2' : Square) (q q' : string) :
  promoShape q → promoShape q' →
  qualifier m wf wr +:+ (if c then "x" else EmptyString) +:+ Square_String s2 +:+ q
  = qualifier m' wf' wr' +:+ (if c' then "x" else EmptyString)
      +:+ Square_String s2' +:+ q' →
  wf = wf' ∧ wr = wr' ∧ c = c' ∧ s2 = s2' ∧ q = q'
  ∧ (wf = true → Square_File (S1 m) = Square_File (S1 m'))
  ∧ (wr = true → Square_Rank (S1 m) = Square_Rank (S1 m')).
Proof.
  intros [->|[t ->]] [->|[t' ->]]; rewrite !qualifier_chars, !Square_String_char;
    destruct wf, wr, c, wf', wr', c'; cbn [id];
    rewrite ?app_String, ?app_empty_l; rewrite ?app_String, ?app_empty_l;
    intros H; peel; try discriminate; try char_clash; inj_chars; subst.
  all: repeat split; try done; try (by apply Square_inj).
Qed.


Lemma File_char_low (f : File) : lowChar (File_char f) = true.
Proof. by destruct f. Qed.
Lemma Rank_char_low (r : Rank) : lowChar (Rank_char r) = true.
Proof. by destruct r. Qed.

Lemma piece_letter_inj (pt pt' : PieceType) (a a' : ascii) (t t' : string) :
  lowChar a = true → lowChar a' = true →
  charFromPieceType pt +:+ String a t = charFromPieceType pt' +:+ String a' t' →
  charFromPieceType pt = charFromPieceType pt' ∧ String a t = String a' t'.
Proof.
  intros Ha Ha'.
  destruct pt, pt'; cbn [charFromPieceType]; rewrite ?app_String, ?app_empty_l;
    intros H; try (split; [reflexivity | exact H]); peel; subst;
    try discriminate; try (by vm_compute in Ha); try (by vm_compute in Ha').
  all: by split.
Qed.

(** The tail of a Standard Algebraic body starts with a file letter, a rank
    digit or 'x'. *)
Lemma AlgebraicNotation_tail_head
    (m : Move) (wf wr c : bool) (s2 : Square) (q : string) :
  ∃ a t, qualifier m wf wr +:+ (if c then "x" else EmptyString)
           +:+ Square_String s2 +:+ q = String a t
         ∧ lowChar a = true.
Proof.
  rewrite qualifier_chars, Square_String_char.
  destruct wf, wr, c; cbn [id]; rewrite ?app_String, ?app_empty_l;
    eexists _, _; (split; [reflexivity|]);
    auto using File_char_low, Rank_char_low.
Qed.

(** The shape of a Standard Algebraic body of a move that is no castle. *)
Lemma AlgebraicNotation_body_shape (pos : Position) (m : Move) :
  castles m = false →
  ∃ wf wr,
    AlgebraicNotation_body pos m
    = charFromPieceType (Piece_Type (board pos (S1 m)))
      +:+ qualifier m wf wr +:+ (if captures m then "x" else EmptyString)
      +:+ Square_String (S2 m) +:+ charForPromo (promo m)
    ∧ (Piece_Type (board pos (S1 m)) ≠ Pawn → formS1 pos m = qualifier m wf wr)
    ∧ (Piece_Type (board pos (S1 m)) = Pawn → wf = captures m ∧ wr = false).
Proof.
  intros Hc. apply castles_false in Hc as [Hk Hq].
  unfold AlgebraicNotation_body. rewrite Hk, Hq. cbv zeta.
  destruct (decide (Piece_Type (board pos (S1 m)) = Pawn)) as [Hp|Hp].
  - exists (captures m), false.
    destruct (formS1_length pos m) as [_ Hs]. rewrite (Hs Hp), Hp.
    rewrite !bool_decide_eq_true_2 by done. cbn [andb charFromPieceType].
    split; [|split; [done | done]].
    unfold qualifier. rewrite !app_empty_l.
    destruct (captures m); [|reflexivity].
    by rewrite app_empty_r, !str_app_assoc.
  - eexists _, _. rewrite (bool_decide_eq_false_2 _ Hp). cbn [andb].
    rewrite <- (formS1_qualifier pos m Hp).
    split; [|split; [done | done]].
    by destruct (captures m).
Qed.

(** Equal Standard Algebraic bodies: what the two moves share. *)
Lemma AlgebraicNotation_body_inj (pos : Position) (m m' : Move) :
  castles m = false →
  AlgebraicNotation_body pos m' = AlgebraicNotation_body pos m →
  castles m' = false
  ∧ charFromPieceType (Piece_Type (board pos (S1 m')))
    = charFromPieceType (Piece_Type (board pos (S1 m)))
  ∧ S2 m' = S2 m ∧ captures m' = captures m
  ∧ charForPromo (promo m') = charForPromo (promo m)
  ∧ (Piece_Type (board pos (S1 m)) = Pawn → captures m = true →
     Square_File (S1 m') = Square_File (S1 m)).
Proof.
  intros Hc E.
  destruct (AlgebraicNotation_body_shape pos m Hc) as (wf & wr & Em & _ & Hpawn).
  destruct (AlgebraicNotation_tail_head m wf wr (captures m) (S2 m)
              (charForPromo (promo m))) as (a & t & Et & Ha).
  assert (Hc' : castles m' = false).
  { destruct (castles m') eqn:Hc'; [|done]. exfalso.
    rewrite Em, Et in E. unfold AlgebraicNotation_body, castles in E, Hc'.
    destruct (HasTag m' KingSideCastle), (HasTag m' QueenSideCastle);
      try discriminate Hc';
      destruct (Piece_Type (board pos (S1 m))); cbn [charFromPieceType] in E;
      rewrite ?app_String, ?app_empty_l in E; peel; subst;
      try discriminate; by vm_compute in Ha. }
  split; [exact Hc'|].
  destruct (AlgebraicNotation_body_shape pos m' Hc') as (wf' & wr' & Em' & _ & _).
  destruct (AlgebraicNotation_tail_head m' wf' wr' (captures m') (S2 m')
              (charForPromo (promo m'))) as (a' & t' & Et' & Ha').
  rewrite Em, Em' in E. pose proof E as E2. rewrite Et, Et' in E2.
  apply piece_letter_inj in E2 as [EP E2]; [|done|done].
  rewrite <- Et, <- Et' in E2.
  apply AlgebraicNotation_tail_inj in E2
    as (Hwf & Hwr & Hcap & Hs2 & Hq & Hfile & _); try apply charForPromo_shape.
  repeat split; try done.
  intros Hp Hcapm. destruct (Hpawn Hp) as [-> _]. rewrite Hcapm in Hwf.
  apply Hfile. done.
Qed.

Lemma charFromPieceType_inj (pt pt' : PieceType) :
  charFromPieceType pt ≠ EmptyString →
  charFromPieceType pt' = charFromPieceType pt → pt' = pt.
Proof. destruct pt, pt'; cbn; intros H E; try done; try discriminate. Qed.

(** Equal Long Algebraic bodies: what the two moves share. *)
Lemma LongAlgebraicNotation_body_eq (pos : Position) (m m' : Move) :
  castles m = false →
  LongAlgebraicNotation_body pos m' = LongAlgebraicNotation_body pos m →
  castles m' = false ∧ S1 m' = S1 m ∧ S2 m' = S2 m ∧ captures m' = captures m
  ∧ charForPromo (promo m') = charForPromo (promo m).
Proof.
  intros Hc E. pose proof Hc as Hc0. apply castles_false in Hc as [Hk Hq].
  unfold LongAlgebraicNotation_body in E. rewrite Hk, Hq in E.
  assert (Hc' : castles m' = false).
  { destruct (castles m') eqn:Hc'; [|done]. exfalso. unfold castles in Hc'.
    rewrite !Square_String_char in E.
    destruct (HasTag m' KingSideCastle), (HasTag m' QueenSideCastle);
      try discriminate Hc';
      destruct (Piece_Type (board pos (S1 m))); cbn [charFromPieceType] in E;
      rewrite ?app_String, ?app_empty_l in E; peel;
      try discriminate; char_clash. }
  split; [exact Hc'|]. apply castles_false in Hc' as [Hk' Hq'].
  rewrite Hk', Hq' in E.
  apply LongAlgebraicNotation_body_inj in E as (_ & ? & ? & ? & ?). done.
Qed.

(** The castles: equal bodies carry the same castle. *)
Lemma castle_body_eq (body : Position → Move → string) (pos : Position) (m m' : Move) :
  (body = AlgebraicNotation_body ∨ body = LongAlgebraicNotation_body) →
  castles m = true → body pos m' = body pos m →
  castles m' = true
  ∧ HasTag m' KingSideCastle = HasTag m KingSideCastle.
Proof.
  intros Hb Hc E. destruct (castles m') eqn:Hc'.
  - split; [done|]. unfold castles in Hc, Hc'.
    destruct Hb as [-> | ->];
      unfold AlgebraicNotation_body, LongAlgebraicNotation_body in E;
      destruct (HasTag m KingSideCastle), (HasTag m QueenSideCastle),
        (HasTag m' KingSideCastle), (HasTag m' QueenSideCastle);
      try discriminate Hc; try discriminate Hc'; try reflexivity; discriminate E.
  - exfalso. destruct Hb as [-> | ->].
    + symmetry in E. apply AlgebraicNotation_body_inj in E as [? _]; congruence.
    + symmetry in E. apply LongAlgebraicNotation_body_eq in E as [? _]; congruence.
Qed.

(** ** Round trips of the legal-move notations *)

Section RoundTrips.
Variable Update : Position → Move → Position.

#[local] Abbreviation SAN_Encode := (AlgebraicNotation_Encode Update).
#[local] Abbreviation SAN_Decode := (AlgebraicNotation_Decode Update).
#[local] Abbreviation LAN_Encode := (LongAlgebraicNotation_Encode Update).
#[local] Abbreviation LAN_Decode := (LongAlgebraicNotation_Decode Update).

(** Decoding the encoding of a legal move: some legal move with the same
    body comes back. *)
Lemma AlgebraicNotation_Decode_Encode (pos : Position) (m : Move) :
  m ∈ ValidMoves pos →
  ∃ m', SAN_Decode pos (SAN_Encode pos m) = Ok m' ∧ m' ∈ ValidMoves pos
        ∧ AlgebraicNotation_body pos m' = AlgebraicNotation_body pos m.
Proof.
  intros Hin. unfold AlgebraicNotation_Decode. cbv zeta. fold (strip (SAN_Encode pos m)).
  destruct (decodeLoop_finds (SAN_Encode pos) _ _ m Hin eq_refl) as (m' & -> & Hf).
  apply first_with_elem in Hf as [Hin' E]. cbv beta in E.
  rewrite !strip_AlgebraicNotation_Encode_body in E. eauto.
Qed.

Lemma LongAlgebraicNotation_Decode_Encode (pos : Position) (m : Move) :
  m ∈ ValidMoves pos →
  ∃ m', LAN_Decode pos (LAN_Encode pos m) = Ok m' ∧ m' ∈ ValidMoves pos
        ∧ LongAlgebraicNotation_body pos m' = LongAlgebraicNotation_body pos m.
Proof.
  intros Hin. unfold LongAlgebraicNotation_Decode. cbv zeta.
  fold (strip (LAN_Encode pos m)).
  destruct (decodeLoop_finds (LAN_Encode pos) _ _ m Hin eq_refl) as (m' & -> & Hf).
  apply first_with_elem in Hf as [Hin' E]. cbv beta in E.
  rewrite !strip_LongAlgebraicNotation_Encode_body in E. eauto.
Qed.

(** X10. Long Algebraic round trip of a legal move [m] that is no castle:
    the decoded move is legal, no castle, and has the origin, the
    destination, the capture mark and the promotion text of [m]; it is [m]
    when no other legal move has these squares and this promotion text. *)
Theorem LongAlgebraic_roundtrip_squares (pos : Position) (m : Move) :
  m ∈ ValidMoves pos → castles m = false →
  ∃ m', LAN_Decode pos (LAN_Encode pos m) = Ok m' ∧ m' ∈ ValidMoves pos
        ∧ castles m' = false ∧ S1 m' = S1 m ∧ S2 m' = S2 m
        ∧ captures m' = captures m
        ∧ charForPromo (promo m') = charForPromo (promo m)
        ∧ ((∀ x, x ∈ ValidMoves pos → S1 x = S1 m → S2 x = S2 m →
                 charForPromo (promo x) = charForPromo (promo m) → x = m) →
           m' = m).
Proof.
  intros Hin Hc.
  destruct (LongAlgebraicNotation_Decode_Encode pos m Hin) as (m' & E & Hin' & Eb).
  exists m'. split; [exact E|]. split; [exact Hin'|].
  apply (LongAlgebraicNotation_body_eq pos) in Eb as (? & ? & ? & ? & ?); [|done].
  repeat split; try done. intros Huniq. by apply Huniq.
Qed.

(** X11. Round trip of a legal castle, in both notations: a castle of the
    same side comes back. *)
Theorem castle_roundtrip (pos : Position) (m : Move) :
  m ∈ ValidMoves pos → castles m = true →
  (∃ m', SAN_Decode pos (SAN_Encode pos m) = Ok m' ∧ castles m' = true
         ∧ HasTag m' KingSideCastle = HasTag m KingSideCastle)
  ∧ (∃ m', LAN_Decode pos (LAN_Encode pos m) = Ok m' ∧ castles m' = true
           ∧ HasTag m' KingSideCastle = HasTag m KingSideCastle).
Proof.
  intros Hin Hc. split.
  - destruct (AlgebraicNotation_Decode_Encode pos m Hin) as (m' & E & _ & Eb).
    exists m'. split; [exact E|].
    apply (castle_body_eq AlgebraicNotation_body pos m m'); auto.
  - destruct (LongAlgebraicNotation_Decode_Encode pos m Hin) as (m' & E & _ & Eb).
    exists m'. split; [exact E|].
    apply (castle_body_eq LongAlgebraicNotation_body pos m m'); auto.
Qed.

(** X12. Standard Algebraic round trip of a legal move [m] that is no
    castle: the decoded move is legal, no castle, and has the destination,
    the piece letter, the capture mark and the promotion text of [m], and
    the origin file of [m] when [m] is a capture by a pawn. *)
Theorem Algebraic_roundtrip_destination (pos : Position) (m : Move) :
  m ∈ ValidMoves pos → castles m = false →
  ∃ m', SAN_Decode pos (SAN_Encode pos m) = Ok m' ∧ m' ∈ ValidMoves pos
        ∧ castles m' = false ∧ S2 m' = S2 m
        ∧ charFromPieceType (Piece_Type (board pos (S1 m')))
          = charFromPieceType (Piece_Type (board pos (S1 m)))
        ∧ captures m' = captures m
        ∧ charForPromo (promo m') = charForPromo (promo m)
        ∧ (Piece_Type (board pos (S1 m)) = Pawn → captures m = true →
           Square_File (S1 m') = Square_File (S1 m)).
Proof.
  intros Hin Hc.
  destruct (AlgebraicNotation_Decode_Encode pos m Hin) as (m' & E & Hin' & Eb).
  exists m'. split; [exact E|]. split; [exact Hin'|].
  apply AlgebraicNotation_body_inj in Eb as (? & ? & ? & ? & ? & ?); done.
Qed.

(** Two competitors never share a Standard Algebraic body. *)
Lemma competitor_bodies_differ (pos : Position) (m1 m2 : Move) :
  Piece_Type (board pos (S1 m1)) ≠ Pawn →
  castles m1 = false → castles m2 = false →
  m1 ∈ ValidMoves pos → competitor pos m1 m2 →
  AlgebraicNotation_body pos m1 ≠ AlgebraicNotation_body pos m2.
Proof.
  intros Hp Hc1 Hc2 Hin Hc E.
  assert (Hp2 : Piece_Type (board pos (S1 m2)) ≠ Pawn).
  { destruct Hc as (_ & _ & _ & Et & _). by rewrite Et. }
  assert (Et : Piece_Type (board pos (S1 m2)) = Piece_Type (board pos (S1 m1))).
  { by destruct Hc as (_ & _ & _ & Et & _). }
  apply castles_false in Hc1 as [Hk1 Hq1]. apply castles_false in Hc2 as [Hk2 Hq2].
  unfold AlgebraicNotation_body in E. rewrite Hk1, Hq1, Hk2, Hq2 in E. cbv zeta in E.
  rewrite Et in E. apply (inj (String.app _)) in E.
  by apply competitor_qualifiers_differ in E.
Qed.

(** X13. Standard Algebraic round trip of a legal move of a King, Queen,
    Rook, Bishop or Knight, when all legal moves are moves of one colour:
    the decoded move has the same origin and destination. *)
Theorem Algebraic_roundtrip_piece_squares (pos : Position) (m : Move) :
  m ∈ ValidMoves pos → castles m = false →
  charFromPieceType (Piece_Type (board pos (S1 m))) ≠ EmptyString →
  (∀ x, x ∈ ValidMoves pos →
        Piece_Color (board pos (S1 x)) = Piece_Color (board pos (S1 m))) →
  ∃ m', SAN_Decode pos (SAN_Encode pos m) = Ok m'
        ∧ S1 m' = S1 m ∧ S2 m' = S2 m.
Proof.
  intros Hin Hc Hpiece Hcolor.
  destruct (AlgebraicNotation_Decode_Encode pos m Hin) as (m' & E & Hin' & Eb).
  exists m'. split; [exact E|].
  pose proof Eb as Eb'.
  apply AlgebraicNotation_body_inj in Eb' as (Hc' & HP & HS2 & _); [|done].
  split; [|exact HS2].
  destruct (decide (S1 m' = S1 m)) as [|Hne]; [done|]. exfalso.
  assert (Hp : Piece_Type (board pos (S1 m)) ≠ Pawn).
  { intros Hp. rewrite Hp in Hpiece. by apply Hpiece. }
  apply (competitor_bodies_differ pos m m' Hp Hc Hc' Hin); [|done].
  unfold competitor. repeat split; try done.
  - by apply charFromPieceType_inj.
  - by apply Hcolor.
Qed.

(** X14. Two legal moves of like pieces, no pawns, from different squares
    to one square never get the same qualifier, nor the same Standard
    Algebraic text, stripped or not. *)
Theorem competitors_get_distinct_texts (pos : Position) (m1 m2 : Move) :
  Piece_Type (board pos (S1 m1)) ≠ Pawn →
  castles m1 = false → castles m2 = false →
  m1 ∈ ValidMoves pos → competitor pos m1 m2 →
  formS1 pos m1 ≠ formS1 pos m2
  ∧ strip (SAN_Encode pos m1) ≠ strip (SAN_Encode pos m2)
  ∧ SAN_Encode pos m1 ≠ SAN_Encode pos m2.
Proof.
  intros Hp Hc1 Hc2 Hin Hc.
  assert (Hs : strip (SAN_Encode pos m1) ≠ strip (SAN_Encode pos m2)).
  { rewrite !strip_AlgebraicNotation_Encode_body. by apply competitor_bodies_differ. }
  split; [|split; [exact Hs | congruence]].
  intros E. apply (competitor_qualifiers_differ pos m1 m2 EmptyString EmptyString); try done.
  by rewrite E.
Qed.

End RoundTrips.

(** ** The order of the legal moves, and UCI without a position *)

Lemma bool_eq_by_iff (b b' : bool) (P Q : Prop) :
  (b = true ↔ P) → (b' = true ↔ Q) → (P ↔ Q) → b = b'.
Proof. destruct b, b'; intuition congruence. Qed.

(** X15. The qualifier of [formS1] depends on the legal moves as a set: two
    positions with the same board and the same legal moves, in whatever
    order, give the same qualifier. *)
Theorem formS1_move_order_irrelevant (pos pos' : Position) (m : Move) :
  (∀ sq, board pos sq = board pos' sq) →
  (∀ mv, mv ∈ ValidMoves pos ↔ mv ∈ ValidMoves pos') →
  formS1 pos m = formS1 pos' m.
Proof.
  intros Hb Hm.
  assert (Hc : ∀ mv, competitor pos m mv ↔ competitor pos' m mv).
  { intros mv. unfold competitor. by rewrite Hm, !Hb. }
  destruct (formS1_flags_spec pos m) as (Hreq & Hrank & Hfile).
  destruct (formS1_flags_spec pos' m) as (Hreq' & Hrank' & Hfile').
  unfold formS1. rewrite Hb.
  rewrite (bool_eq_by_iff _ _ _ _ Hreq Hreq'), (bool_eq_by_iff _ _ _ _ Hrank Hrank'),
    (bool_eq_by_iff _ _ _ _ Hfile Hfile'); [done|..]; by setoid_rewrite Hc.
Qed.

Lemma formS1_move_order_irrelevant_witness :
  (∀ sq, board rooksPos sq = board rooksPosReversed sq)
  ∧ (∀ mv, mv ∈ ValidMoves rooksPos ↔ mv ∈ ValidMoves rooksPosReversed)
  ∧ formS1 rooksPos Rad1 = formS1 rooksPosReversed Rad1.
Proof.
  assert (Hb : ∀ sq, board rooksPos sq = board rooksPosReversed sq) by reflexivity.
  assert (Hm : ∀ mv, mv ∈ ValidMoves rooksPos ↔ mv ∈ ValidMoves rooksPosReversed).
  { intros mv. cbn [ValidMoves rooksPos rooksPosReversed]. by rewrite elem_of_reverse. }
  split; [exact Hb|]. split; [exact Hm|].
  exact (formS1_move_order_irrelevant rooksPos rooksPosReversed Rad1 Hb Hm).
Defined.

Lemma UCI_promo_fun (s : string) (p p' : PieceType) :
  UCI_promo s p → UCI_promo s p' → p = p'.
Proof.
  intros [[Hl ->]|[Hl Hq]] [[Hl' ->]|[Hl' Hq']]; try done; try lia.
  destruct Hq as [[Ea ->]|[[Ea ->]|[[Ea ->]|[Ea ->]]]],
    Hq' as [[Eb ->]|[[Eb ->]|[[Eb ->]|[Eb ->]]]]; try done; congruence.
Qed.

(** X16. In UCI decoding the position only adds tags: when a text decodes
    with a position to [m], it decodes without one to [m] without its
    tags. *)
Theorem UCI_Decode_position_adds_tags (pos : Position) (s : string) (m : Move) :
  UCINotation_Decode (Some pos) s = Ok m →
  UCINotation_Decode None s = Ok (bareMove m).
Proof.
  intros H. apply UCI_Decode_Ok_inv in H as (Hwf & H1 & H2 & Hp & _).
  destruct (UCI_Decode_Ok None s Hwf) as (s1 & s2 & p & L1 & L2 & Hp' & tg & E & ->).
  rewrite E. rewrite H1 in L1. rewrite H2 in L2.
  rewrite (proj2 (strToSquareMap_lookup _ (S1 m)) eq_refl) in L1.
  rewrite (proj2 (strToSquareMap_lookup _ (S2 m)) eq_refl) in L2.
  injection L1 as <-. injection L2 as <-.
  by rewrite (UCI_promo_fun s p (promo m) Hp' Hp).
Qed.

(** ** The round trip *)

Lemma charForPromo_inj (p q : PieceType) :
  p ∈ uciPromos → q ∈ uciPromos → charForPromo p = charForPromo q → p = q.
Proof.
  unfold uciPromos. rewrite !elem_of_cons, !elem_of_nil.
  intros Hp Hq E.
  destruct p, q; try done; try (by vm_compute in E); exfalso; intuition discriminate.
Qed.

(** A piece without a letter is a pawn. *)
Lemma charFromPieceType_empty (pt : PieceType) :
  charFromPieceType pt = EmptyString → pt ≠ NoPieceType → pt = Pawn.
Proof. by destruct pt. Qed.

Section RoundTrip.
Variable Update : Position → Move → Position.

#[local] Abbreviation SAN_Encode := (AlgebraicNotation_Encode Update).
#[local] Abbreviation SAN_Decode := (AlgebraicNotation_Decode Update).
#[local] Abbreviation LAN_Encode := (LongAlgebraicNotation_Encode Update).
#[local] Abbreviation LAN_Decode := (LongAlgebraicNotation_Decode Update).

(** Long Algebraic text shows both squares and the promotion, or the side
    of the castle. *)
Lemma LongAlgebraicNotation_roundtrip (pos : Position) (m : Move) :
  m ∈ ValidMoves pos →
  legalPromos pos → squaresDetermine pos → oneCastlePerSide pos →
  LAN_Decode pos (LAN_Encode pos m) = Ok m.
Proof.
  intros Hin Hpr Hsq Hca.
  destruct (LongAlgebraicNotation_Decode_Encode Update pos m Hin) as (m' & E & Hin' & Eb).
  rewrite E. f_equal. destruct (castles m) eqn:Hc.
  - destruct (castle_body_eq LongAlgebraicNotation_body pos m m') as [Hc' Hk]; auto.
  - apply (LongAlgebraicNotation_body_eq pos) in Eb as (_ & E1 & E2 & _ & Eq); [|done].
    apply Hsq; try done. apply charForPromo_inj; auto.
Qed.

(** Standard Algebraic text shows the destination and the promotion; the
    origin is recovered from the qualifier of [formS1] for a piece, and from
    the file written before the capture mark for a pawn. *)
Lemma AlgebraicNotation_roundtrip (pos : Position) (m : Move) :
  m ∈ ValidMoves pos →
  legalPromos pos → squaresDetermine pos → oneCastlePerSide pos →
  originsOccupied pos → oneSideMoves pos → pawnsDetermined pos →
  SAN_Decode pos (SAN_Encode pos m) = Ok m.
Proof.
  intros Hin Hpr Hsq Hca Hocc Hside Hpawn.
  destruct (AlgebraicNotation_Decode_Encode Update pos m Hin) as (m' & E & Hin' & Eb).
  rewrite E. f_equal. destruct (castles m) eqn:Hc.
  - destruct (castle_body_eq AlgebraicNotation_body pos m m') as [Hc' Hk]; auto.
  - pose proof Eb as Eb'.
    apply AlgebraicNotation_body_inj in Eb' as (Hc' & HP & HS2 & Hcap & Hq & Hfile);
      [|done].
    apply Hsq; try done; [|apply charForPromo_inj; auto].
    destruct (decide (charFromPieceType (Piece_Type (board pos (S1 m))) = EmptyString))
      as [He|Hne].
    + assert (Hp : Piece_Type (board pos (S1 m)) = Pawn)
        by (apply charFromPieceType_empty; auto).
      assert (Hp' : Piece_Type (board pos (S1 m')) = Pawn).
      { apply charFromPieceType_empty; [congruence | auto]. }
      apply Hpawn; try done. intros Hx. apply Hfile; congruence.
    + destruct (decide (S1 m' = S1 m)) as [|Hd]; [done|]. exfalso.
      assert (Hp : Piece_Type (board pos (S1 m)) ≠ Pawn).
      { intros Hp. rewrite Hp in Hne. by apply Hne. }
      apply (competitor_bodies_differ pos m m' Hp Hc Hc' Hin); [|done].
      unfold competitor. repeat split; try done.
      * by apply charFromPieceType_inj.
      * by apply Hside.
Qed.

(** C1, as amended.  UCI: when the promotion of [m] is none, Queen, Rook,
    Bishop or Knight, decoding the encoding of [m] yields a move with the
    origin, destination and promotion of [m] and the tags UCI infers from
    the position (never Check); it is [m] exactly when the tags of [m] are
    those.  Standard and Long Algebraic: for a legal [m], decoding the
    encoding of [m] yields a legal move that is written as [m] is, up to the
    check or mate suffix.  It yields [m] itself in Long Algebraic notation
    when the legal moves promote to nothing, Queen, Rook, Bishop or Knight,
    no two of them share origin, destination and promotion, and at most one
    castles on each side; and in Standard Algebraic notation when moreover
    every legal move starts on a piece, all are moves of one colour, and
    only one pawn can advance to a square or capture on it from a file. *)
Theorem Decode_Encode_roundtrip (pos : Position) (m : Move) :
  (promo m ∈ uciPromos →
   ∃ m', UCINotation_Decode (Some pos) (UCINotation_Encode (Some pos) m) = Ok m'
         ∧ S1 m' = S1 m ∧ S2 m' = S2 m ∧ promo m' = promo m
         ∧ (∀ t, t ∈ tags m' ↔ UCI_tag pos (S1 m) (S2 m) t)
         ∧ (m' = m ↔ ∀ t, t ∈ tags m ↔ UCI_tag pos (S1 m) (S2 m) t))
  ∧ (m ∈ ValidMoves pos →
     (∃ m', SAN_Decode pos (SAN_Encode pos m) = Ok m' ∧ m' ∈ ValidMoves pos
            ∧ AlgebraicNotation_body pos m' = AlgebraicNotation_body pos m)
     ∧ (∃ m', LAN_Decode pos (LAN_Encode pos m) = Ok m' ∧ m' ∈ ValidMoves pos
              ∧ LongAlgebraicNotation_body pos m' = LongAlgebraicNotation_body pos m)
     ∧ (legalPromos pos → squaresDetermine pos → oneCastlePerSide pos →
        LAN_Decode pos (LAN_Encode pos m) = Ok m)
     ∧ (legalPromos pos → squaresDetermine pos → oneCastlePerSide pos →
        originsOccupied pos → oneSideMoves pos → pawnsDetermined pos →
        SAN_Decode pos (SAN_Encode pos m) = Ok m)).
Proof.
  split.
  - intros Hp. rewrite (UCI_Decode_Encode _ _ m Hp).
    destruct (UCI_inferTags_spec pos (bareMove m)) as (tg & E & Htg).
    cbn [bareMove S1 S2 promo tags] in E, Htg.
    eexists. split; [reflexivity|]. rewrite E. cbn [S1 S2 promo tags].
    assert (Htg' : ∀ t, t ∈ tg ↔ UCI_tag pos (S1 m) (S2 m) t).
    { intros t. rewrite Htg, elem_of_empty. tauto. }
    do 3 (split; [reflexivity|]). split; [exact Htg'|].
    rewrite (bareMove_eq m _ tg eq_refl). by setoid_rewrite Htg'.
  - intros Hin.
    split; [by apply AlgebraicNotation_Decode_Encode|].
    split; [by apply LongAlgebraicNotation_Decode_Encode|].
    split; [by apply LongAlgebraicNotation_roundtrip
           | by apply AlgebraicNotation_roundtrip].
Qed.

End RoundTrip.

(** ** The sample positions again *)

(** Closed decidable facts, by evaluation. *)
Ltac by_eval := apply (bool_decide_unpack _); vm_compute; reflexivity.

Lemma UCI_Encode_inj_witness :
  promo Ra8 ∈ uciPromos ∧ promo (quietMove A1 A8) ∈ uciPromos
  ∧ UCINotation_Encode (Some rooksPos) Ra8 = UCINotation_Encode None (quietMove A1 A8)
  ∧ S1 Ra8 = S1 (quietMove A1 A8) ∧ S2 Ra8 = S2 (quietMove A1 A8)
  ∧ promo Ra8 = promo (quietMove A1 A8).
Proof.
  assert (H1 : promo Ra8 ∈ uciPromos) by by_eval.
  assert (H2 : promo (quietMove A1 A8) ∈ uciPromos) by by_eval.
  assert (E : UCINotation_Encode (Some rooksPos) Ra8
              = UCINotation_Encode None (quietMove A1 A8)) by reflexivity.
  split; [exact H1|]. split; [exact H2|]. split; [exact E|].
  exact (UCI_Encode_inj (Some rooksPos) None Ra8 (quietMove A1 A8) H1 H2 E).
Defined.

Lemma UCI_Decode_position_adds_tags_witness :
  UCINotation_Decode (Some castlePos) "e1g1" = Ok shortCastle
  ∧ UCINotation_Decode None "e1g1" = Ok (bareMove shortCastle).
Proof.
  assert (H : UCINotation_Decode (Some castlePos) "e1g1" = Ok shortCastle) by by_eval.
  split; [exact H|].
  exact (UCI_Decode_position_adds_tags castlePos "e1g1" shortCastle H).
Defined.

Lemma UCI_Decode_then_Encode_unmarked_witness :
  UCINotation_Decode (Some castlePos) "e1g1" = Ok shortCastle
  ∧ getCheckChar sampleUpdate castlePos shortCastle = EmptyString
  ∧ allChars bodyChar (AlgebraicNotation_Encode sampleUpdate castlePos shortCastle) = true
  ∧ allChars bodyChar (LongAlgebraicNotation_Encode sampleUpdate castlePos shortCastle)
    = true.
Proof.
  assert (H : UCINotation_Decode (Some castlePos) "e1g1" = Ok shortCastle) by by_eval.
  split; [exact H|].
  exact (UCI_Decode_then_Encode_unmarked sampleUpdate (Some castlePos) "e1g1"
           shortCastle castlePos H).
Defined.

Lemma Decode_Encode_Decode_witness :
  AlgebraicNotation_Decode sampleUpdate rooksPos "Ra8!" = Ok Ra8
  ∧ LongAlgebraicNotation_Decode sampleUpdate rooksPos "Ra1a8!" = Ok Ra8
  ∧ AlgebraicNotation_Decode sampleUpdate rooksPos
      (AlgebraicNotation_Encode sampleUpdate rooksPos Ra8) = Ok Ra8
  ∧ LongAlgebraicNotation_Decode sampleUpdate rooksPos
      (LongAlgebraicNotation_Encode sampleUpdate rooksPos Ra8) = Ok Ra8.
Proof.
  assert (H1 : AlgebraicNotation_Decode sampleUpdate rooksPos "Ra8!" = Ok Ra8) by by_eval.
  assert (H2 : LongAlgebraicNotation_Decode sampleUpdate rooksPos "Ra1a8!" = Ok Ra8)
    by by_eval.
  split; [exact H1|]. split; [exact H2|]. split.
  - exact (proj1 (Decode_Encode_Decode sampleUpdate rooksPos "Ra8!" Ra8) H1).
  - exact (proj2 (Decode_Encode_Decode sampleUpdate rooksPos "Ra1a8!" Ra8) H2).
Defined.

Lemma Decode_accepts_only_bodies_witness :
  AlgebraicNotation_Decode sampleUpdate rooksPos "Ra8+!" = Ok Ra8
  ∧ LongAlgebraicNotation_Decode sampleUpdate rooksPos "Ra1e.p.a8#" = Ok Ra8
  ∧ (allChars bodyChar (strip "Ra8+!") = true ∧ 2 ≤ String.length (strip "Ra8+!") ≤ 8)
  ∧ (allChars bodyChar (strip "Ra1e.p.a8#") = true
     ∧ 3 ≤ String.length (strip "Ra1e.p.a8#") ≤ 8).
Proof.
  assert (H1 : AlgebraicNotation_Decode sampleUpdate rooksPos "Ra8+!" = Ok Ra8) by by_eval.
  assert (H2 : LongAlgebraicNotation_Decode sampleUpdate rooksPos "Ra1e.p.a8#" = Ok Ra8)
    by by_eval.
  split; [exact H1|]. split; [exact H2|]. split.
  - exact (proj1 (Decode_accepts_only_bodies sampleUpdate rooksPos "Ra8+!" Ra8) H1).
  - exact (proj2 (Decode_accepts_only_bodies sampleUpdate rooksPos "Ra1e.p.a8#" Ra8) H2).
Defined.

Lemma Decode_rejects_witness :
  allChars markChar "+#!?" = true
  ∧ allChars bodyChar "R" = true ∧ allChars bodyChar "a8" = true
  ∧ (∃ e, AlgebraicNotation_Decode sampleUpdate rooksPos "+#!?" = Err e)
  ∧ (∃ e, LongAlgebraicNotation_Decode sampleUpdate rooksPos "+#!?" = Err e)
  ∧ (∃ e, AlgebraicNotation_Decode sampleUpdate rooksPos ("R" +:+ "e.e.p.p." +:+ "a8")
          = Err e)
  ∧ (∃ e, LongAlgebraicNotation_Decode sampleUpdate rooksPos
            ("R" +:+ "e.e.p.p." +:+ "a8") = Err e).
Proof.
  assert (H1 : allChars markChar "+#!?" = true) by reflexivity.
  assert (H2 : allChars bodyChar "R" = true) by reflexivity.
  assert (H3 : allChars bodyChar "a8" = true) by reflexivity.
  destruct (Decode_rejects sampleUpdate rooksPos) as [Hm Hn].
  split; [exact H1|]. split; [exact H2|]. split; [exact H3|].
  split; [exact (proj1 (Hm _ H1))|]. split; [exact (proj2 (Hm _ H1))|].
  split; [exact (proj1 (Hn _ _ H2 H3)) | exact (proj2 (Hn _ _ H2 H3))].
Defined.

Lemma LongAlgebraic_roundtrip_squares_witness :
  Rad1 ∈ ValidMoves rooksPos ∧ castles Rad1 = false
  ∧ ∃ m', LongAlgebraicNotation_Decode sampleUpdate rooksPos
            (LongAlgebraicNotation_Encode sampleUpdate rooksPos Rad1) = Ok m'
          ∧ S1 m' = S1 Rad1 ∧ S2 m' = S2 Rad1.
Proof.
  assert (Hin : Rad1 ∈ ValidMoves rooksPos) by by_eval.
  assert (Hc : castles Rad1 = false) by reflexivity.
  split; [exact Hin|]. split; [exact Hc|].
  destruct (LongAlgebraic_roundtrip_squares sampleUpdate rooksPos Rad1 Hin Hc)
    as (m' & E & _ & _ & E1 & E2 & _).
  exists m'. auto.
Defined.

Lemma castle_roundtrip_witness :
  shortCastle ∈ ValidMoves castlePos ∧ castles shortCastle = true
  ∧ (∃ m', AlgebraicNotation_Decode sampleUpdate castlePos
             (AlgebraicNotation_Encode sampleUpdate castlePos shortCastle) = Ok m'
           ∧ castles m' = true
           ∧ HasTag m' KingSideCastle = HasTag shortCastle KingSideCastle)
  ∧ (∃ m', LongAlgebraicNotation_Decode sampleUpdate castlePos
             (LongAlgebraicNotation_Encode sampleUpdate castlePos shortCastle) = Ok m'
           ∧ castles m' = true
           ∧ HasTag m' KingSideCastle = HasTag shortCastle KingSideCastle).
Proof.
  assert (Hin : shortCastle ∈ ValidMoves castlePos) by by_eval.
  assert (Hc : castles shortCastle = true) by reflexivity.
  split; [exact Hin|]. split; [exact Hc|].
  exact (castle_roundtrip sampleUpdate castlePos shortCastle Hin Hc).
Defined.

Lemma Algebraic_roundtrip_destination_witness :
  Rad1 ∈ ValidMoves rooksPos ∧ castles Rad1 = false
  ∧ ∃ m', AlgebraicNotation_Decode sampleUpdate rooksPos
            (AlgebraicNotation_Encode sampleUpdate rooksPos Rad1) = Ok m'
          ∧ S2 m' = S2 Rad1.
Proof.
  assert (Hin : Rad1 ∈ ValidMoves rooksPos) by by_eval.
  assert (Hc : castles Rad1 = false) by reflexivity.
  split; [exact Hin|]. split; [exact Hc|].
  destruct (Algebraic_roundtrip_destination sampleUpdate rooksPos Rad1 Hin Hc)
    as (m' & E & _ & _ & E2 & _).
  exists m'. auto.
Defined.

Lemma Algebraic_roundtrip_piece_squares_witness :
  Rad1 ∈ ValidMoves rooksPos ∧ castles Rad1 = false
  ∧ charFromPieceType (Piece_Type (board rooksPos (S1 Rad1))) ≠ EmptyString
  ∧ (∀ x, x ∈ ValidMoves rooksPos →
          Piece_Color (board rooksPos (S1 x)) = Piece_Color (board rooksPos (S1 Rad1)))
  ∧ ∃ m', AlgebraicNotation_Decode sampleUpdate rooksPos
            (AlgebraicNotation_Encode sampleUpdate rooksPos Rad1) = Ok m'
          ∧ S1 m' = S1 Rad1 ∧ S2 m' = S2 Rad1.
Proof.
  assert (Hin : Rad1 ∈ ValidMoves rooksPos) by by_eval.
  assert (Hc : castles Rad1 = false) by reflexivity.
  assert (Hp : charFromPieceType (Piece_Type (board rooksPos (S1 Rad1))) ≠ EmptyString)
    by discriminate.
  assert (Hcol : ∀ x, x ∈ ValidMoves rooksPos →
            Piece_Color (board rooksPos (S1 x)) = Piece_Color (board rooksPos (S1 Rad1))).
  { apply Forall_forall. by_eval. }
  split; [exact Hin|]. split; [exact Hc|]. split; [exact Hp|]. split; [exact Hcol|].
  exact (Algebraic_roundtrip_piece_squares sampleUpdate rooksPos Rad1 Hin Hc Hp Hcol).
Defined.

Lemma competitors_get_distinct_texts_witness :
  Piece_Type (board rooksPos (S1 Rad1)) ≠ Pawn
  ∧ castles Rad1 = false ∧ castles (quietMove H1 D1) = false
  ∧ Rad1 ∈ ValidMoves rooksPos ∧ competitor rooksPos Rad1 (quietMove H1 D1)
  ∧ formS1 rooksPos Rad1 ≠ formS1 rooksPos (quietMove H1 D1)
  ∧ strip (AlgebraicNotation_Encode sampleUpdate rooksPos Rad1)
    ≠ strip (AlgebraicNotation_Encode sampleUpdate rooksPos (quietMove H1 D1))
  ∧ AlgebraicNotation_Encode sampleUpdate rooksPos Rad1
    ≠ AlgebraicNotation_Encode sampleUpdate rooksPos (quietMove H1 D1).
Proof.
  assert (Hp : Piece_Type (board rooksPos (S1 Rad1)) ≠ Pawn) by discriminate.
  assert (Hc1 : castles Rad1 = false) by reflexivity.
  assert (Hc2 : castles (quietMove H1 D1) = false) by reflexivity.
  assert (Hin : Rad1 ∈ ValidMoves rooksPos) by by_eval.
  assert (Hcomp : competitor rooksPos Rad1 (quietMove H1 D1)).
  { split; [by_eval|]. split; [discriminate|]. by repeat split. }
  split; [exact Hp|]. split; [exact Hc1|]. split; [exact Hc2|]. split; [exact Hin|].
  split; [exact Hcomp|].
  exact (competitors_get_distinct_texts sampleUpdate rooksPos Rad1 (quietMove H1 D1)
           Hp Hc1 Hc2 Hin Hcomp).
Defined.

(** ** The legal-move lists of the samples *)

Lemma forall_elem_of {A} (P : A → Prop) (l : list A) :
  Forall P l → ∀ x, x ∈ l → P x.
Proof. apply Forall_forall. Qed.

Lemma forall2_elem_of {A} (P : A → A → Prop) (l : list A) :
  Forall (λ x, Forall (P x) l) l → ∀ x y, x ∈ l → y ∈ l → P x y.
Proof.
  intros H x y Hx Hy. rewrite Forall_forall in H.
  specialize (H x Hx). rewrite Forall_forall in H. by apply H.
Qed.

(** A fact about all members, or all pairs of members, of a closed list, by
    evaluation. *)
Ltac by_list_eval :=
  lazymatch goal with
  | |- ∀ x y, x ∈ ?l → y ∈ ?l → @?P x y => apply (forall2_elem_of P l); by_eval
  | |- ∀ x, x ∈ ?l → @?P x => apply (forall_elem_of P l); by_eval
  end.

Ltac legal_list_eval :=
  unfold legalPromos, squaresDetermine, oneCastlePerSide, originsOccupied,
    oneSideMoves, pawnsDetermined;
  repeat apply conj; by_list_eval.

(** The three sample positions have legal-move lists as a move generator
    makes them. *)
Lemma pawnsPos_legal_list :
  legalPromos pawnsPos ∧ squaresDetermine pawnsPos ∧ oneCastlePerSide pawnsPos
  ∧ originsOccupied pawnsPos ∧ oneSideMoves pawnsPos ∧ pawnsDetermined pawnsPos.
Proof. legal_list_eval. Defined.

Example castlePos_legal_list :
  legalPromos castlePos ∧ squaresDetermine castlePos ∧ oneCastlePerSide castlePos
  ∧ originsOccupied castlePos ∧ oneSideMoves castlePos ∧ pawnsDetermined castlePos.
Proof. legal_list_eval. Qed.

Example rooksPos_legal_list :
  legalPromos rooksPos ∧ squaresDetermine rooksPos ∧ oneCastlePerSide rooksPos
  ∧ originsOccupied rooksPos ∧ oneSideMoves rooksPos ∧ pawnsDetermined rooksPos.
Proof. legal_list_eval. Qed.

Example pawnsPos_SAN :
  AlgebraicNotation_Encode sampleUpdate pawnsPos <$> pawnsMoves
  = ["Ka2"; "Kb1"; "Kb2"; "b5"; "bxc5"; "d5"; "dxc5"].
Proof. vm_compute. reflexivity. Qed.

(** The amended C1 at the capture bxc5 of the third sample, where a second
    pawn takes on the same square: the move comes back from all three
    notations, its Capture tag being the one UCI infers. *)
Lemma Decode_Encode_roundtrip_witness :
  promo bxc5 ∈ uciPromos ∧ bxc5 ∈ ValidMoves pawnsPos
  ∧ (legalPromos pawnsPos ∧ squaresDetermine pawnsPos ∧ oneCastlePerSide pawnsPos
     ∧ originsOccupied pawnsPos ∧ oneSideMoves pawnsPos ∧ pawnsDetermined pawnsPos)
  ∧ (∃ m', UCINotation_Decode (Some pawnsPos) (UCINotation_Encode (Some pawnsPos) bxc5)
           = Ok m' ∧ (m' = bxc5 ↔ ∀ t, t ∈ tags bxc5 ↔ UCI_tag pawnsPos B4 C5 t))
  ∧ LongAlgebraicNotation_Decode sampleUpdate pawnsPos
      (LongAlgebraicNotation_Encode sampleUpdate pawnsPos bxc5) = Ok bxc5
  ∧ AlgebraicNotation_Decode sampleUpdate pawnsPos
      (AlgebraicNotation_Encode sampleUpdate pawnsPos bxc5) = Ok bxc5.
Proof.
  assert (Hp : promo bxc5 ∈ uciPromos) by by_eval.
  assert (Hin : bxc5 ∈ ValidMoves pawnsPos) by by_eval.
  pose proof pawnsPos_legal_list as Hs.
  destruct (Decode_Encode_roundtrip sampleUpdate pawnsPos bxc5) as [Huci Hlegal].
  destruct (Huci Hp) as (m1 & E1 & _ & _ & _ & _ & Hiff).
  destruct (Hlegal Hin) as (_ & _ & HL & HS).
  destruct Hs as (H1 & H2 & H3 & H4 & H5 & H6).
  split; [exact Hp|]. split; [exact Hin|]. split; [done|].
  split; [by exists m1|]. split; [by apply HL | by apply HS].
Defined.
